(** * stitch_videos.py: a shallow embedding and its verified properties

    The script inserts narrations (an audio recording plus a cursor
    trajectory, named by a millisecond timestamp) into a base video.  This
    development embeds

    - the Python built-ins the script relies on ([str.endswith],
      [os.path.join], [os.path.basename], [os.path.splitext], [int],
      [sorted], [set] equality);
    - the operations of the media engine that the script calls
      ([Clip.subclip], [fx.freeze], [concatenate_videoclips]);
    - the class [CursorClip] with its mutable frame buffer;
    - the function [stitch_video_audio] and the command-line entry point.

    Seconds are rationals ([Q]).  The two float divisions that select the
    trajectory sample (lines 22 and 26) are rounded to binary64; sums,
    differences and comparisons of times, and the division by 1000 of line
    57, are exact.  The media engine is modelled by its arithmetic on clip
    times: the decoding of frames and sound is not modelled, so an error of
    the decoder (a frame that cannot be read near the end of a file) is
    outside the model.  Exceptions are values of [exn]; code that touches
    media files runs in a writer/error monad whose log records the media
    operations in program order. *)

From Stdlib Require Import ZArith QArith Qround Qpower Lia Lqa List Ascii String.
From Stdlib Require Import DecimalString DecimalN.
From stdpp Require Import base decidable list sorting gmap strings.

Local Open Scope Z_scope.

(* ================================================================== *)
(** * Python values and exceptions *)
(* ================================================================== *)

Module Py.

(** The exceptions that the modelled code can raise. *)
Inductive exn : Type :=
  | AssertionError
  | ValueError
  | ZeroDivisionError
  | IndexError
  | AttributeError
  | UnboundLocalError.

Inductive result (A : Type) : Type :=
  | Ok (a : A)
  | Raise (e : exn).
Arguments Ok {A} a.
Arguments Raise {A} e.

Definition rbind {A B} (r : result A) (k : A -> result B) : result B :=
  match r with
  | Ok a => k a
  | Raise e => Raise e
  end.

(** ** Strings

    A Python [str] holding a file name is modelled by its bytes. *)

Definition dot : ascii := "."%char.
Definition sep : ascii := "/"%char.

Fixpoint endswith (s suffix : string) : bool :=
  String.eqb s suffix
  || match s with
     | EmptyString => false
     | String _ s' => endswith s' suffix
     end.

Definition startswith (s pre : string) : bool := String.prefix pre s.

(** [s.rfind(c)]: the highest index of [c] in [s], or [-1]. *)
Fixpoint rfind (c : ascii) (s : string) : Z :=
  match s with
  | EmptyString => -1
  | String a s' =>
      let r := rfind c s' in
      if 0 <=? r then r + 1
      else if Ascii.eqb a c then 0 else -1
  end.

(** The slices [s[:n]] and [s[n:]] for [n >= 0]. *)
Fixpoint take (n : nat) (s : string) : string :=
  match n, s with
  | S n', String a s' => String a (take n' s')
  | _, _ => EmptyString
  end.

Fixpoint drop (n : nat) (s : string) : string :=
  match n, s with
  | S n', String _ s' => drop n' s'
  | _, _ => s
  end.

Fixpoint all_dots (s : string) : bool :=
  match s with
  | EmptyString => true
  | String a s' => Ascii.eqb a dot && all_dots s'
  end.

Fixpoint has_char (c : ascii) (s : string) : bool :=
  match s with
  | EmptyString => false
  | String a s' => Ascii.eqb a c || has_char c s'
  end.

(** [posixpath.join(a, b)]. *)
Definition join (a b : string) : string :=
  if startswith b (String sep EmptyString) then b
  else if String.eqb a EmptyString || endswith a (String sep EmptyString)
       then (a ++ b)%string
       else (a ++ String sep b)%string.

(** [posixpath.basename(p)]: [i = p.rfind('/') + 1; return p[i:]]. *)
Definition basename (p : string) : string :=
  drop (Z.to_nat (rfind sep p + 1)) p.

(** [posixpath.splitext(p)], that is [genericpath._splitext(p, '/', None, '.')]:
    the extension starts at the last dot of the last path component, unless
    only dots precede it in that component. *)
Definition splitext (p : string) : string * string :=
  let sepIndex := rfind sep p in
  let dotIndex := rfind dot p in
  if sepIndex <? dotIndex then
    let filenameIndex := sepIndex + 1 in
    (* the [while] loop scans p[filenameIndex:dotIndex] for a non-dot *)
    if all_dots (take (Z.to_nat (dotIndex - filenameIndex))
                      (drop (Z.to_nat filenameIndex) p))
    then (p, EmptyString)
    else (take (Z.to_nat dotIndex) p, drop (Z.to_nat dotIndex) p)
  else (p, EmptyString).

(** ** [int(s)] on a string

    Surrounding white space is stripped, an optional sign is read, and the
    rest must be decimal digits, single underscores being allowed between
    digits.  The white space that [int] strips from an ASCII string is the
    tab, the line feed, the vertical tab, the form feed, the carriage
    return and the space.  Only ASCII names are modelled: a name with other
    characters is outside the model. *)

Definition is_space (a : ascii) : bool :=
  let n := N_of_ascii a in
  ((9 <=? n) && (n <=? 13) || (n =? 32))%N.

Definition digit_value (a : ascii) : option Z :=
  let n := Z.of_N (N_of_ascii a) in
  if (48 <=? n) && (n <=? 57) then Some (n - 48) else None.

Fixpoint lstrip (s : string) : string :=
  match s with
  | String a s' => if is_space a then lstrip s' else s
  | EmptyString => EmptyString
  end.

(** [s] without its trailing white space. *)
Fixpoint rstrip (s : string) : string :=
  match s with
  | EmptyString => EmptyString
  | String a s' =>
      match rstrip s' with
      | EmptyString => if is_space a then EmptyString else String a EmptyString
      | r => String a r
      end
  end.

(** Digits after at least one digit has been read into [acc];
    [after_us] tells that the previous character was an underscore. *)
Fixpoint digits_tail (acc : Z) (after_us : bool) (s : string) : option Z :=
  match s with
  | EmptyString => if after_us then None else Some acc
  | String a s' =>
      match digit_value a with
      | Some d => digits_tail (10 * acc + d) false s'
      | None =>
          if Ascii.eqb a "_"%char && negb after_us
          then digits_tail acc true s'
          else None
      end
  end.

Definition digits (s : string) : option Z :=
  match s with
  | EmptyString => None
  | String a s' =>
      match digit_value a with
      | Some d => digits_tail d false s'
      | None => None
      end
  end.

Definition int_of_str (s : string) : result Z :=
  let body := rstrip (lstrip s) in
  let signed :=
    match body with
    | String "-" r => option_map Z.opp (digits r)
    | String "+" r => digits r
    | _ => digits body
    end in
  match signed with
  | Some z => Ok z
  | None => Raise ValueError
  end.

(** [int(x)] on a number: truncation towards zero. *)
Definition int_of_float (x : Q) : Z := Z.quot (Qnum x) (Zpos (Qden x)).

(** ** Division of floats

    A float is the rational number it stands for.  The quotient of two
    floats is the exact quotient rounded to binary64: 53 significant bits,
    to the nearest, ties to the even significand.  The range of the
    exponent is not modelled, so there is neither overflow nor underflow. *)

(** The nearest integer, ties to even. *)
Definition rint (x : Q) : Z :=
  let f := Qfloor x in
  match (x - inject_Z f ?= 1 # 2)%Q with
  | Lt => f
  | Gt => f + 1
  | Eq => if Z.even f then f else f + 1
  end.

(** For [q > 0], the exponent [k] with [2^k <= q < 2^(k+1)]. *)
Definition ilog2 (q : Q) : Z :=
  let k := Z.log2 (Qnum q) - Z.log2 (Zpos (Qden q)) in
  if Qle_bool (2 ^ k) q then k else k - 1.

(** Rounding of [q > 0]: the significand [q / 2^e] lies between [2^52] and
    [2^53] and is rounded to an integer. *)
Definition round_pos (q : Q) : Q :=
  let e := ilog2 q - 52 in
  (inject_Z (rint (q / 2 ^ e)) * 2 ^ e)%Q.

(** The binary64 number nearest to [q]. *)
Definition fl (q : Q) : Q :=
  match Qnum q with
  | Z0 => 0%Q
  | Zpos _ => round_pos q
  | Zneg _ => (- round_pos (- q))%Q
  end.

(** The unit roundoff of binary64, [2^-53]. *)
Definition unit_roundoff : Q := 1 # 9007199254740992.

(** [x / y] on floats; a zero divisor raises.  An integer operand (the
    length of the trajectory at line 22) is first converted to a float,
    which is exact below [2^53]. *)
Definition truediv (x y : Q) : result Q :=
  if Qeq_bool y 0 then Raise ZeroDivisionError else Ok (fl (x / y)).

(** [l[i]] with Python's negative indices. *)
Definition getitem {A} (l : list A) (i : Z) : result A :=
  let n := Z.of_nat (length l) in
  let j := if i <? 0 then i + n else i in
  if (0 <=? j) && (j <? n)
  then match nth_error l (Z.to_nat j) with
       | Some x => Ok x
       | None => Raise IndexError
       end
  else Raise IndexError.

(** ** [sorted] and [set] on strings *)

(** Python orders [str] values lexicographically by code point; on byte
    strings this is [String.le]. *)
Definition sorted (l : list string) : list string := merge_sort String.le l.

Definition set (l : list string) : gset string := list_to_set l.

End Py.


Import Py.

(* ================================================================== *)
(** * The media engine *)
(* ================================================================== *)

Definition Qlt_bool (x y : Q) : bool := negb (Qle_bool y x).

Fixpoint Qsum (l : list Q) : Q :=
  match l with
  | [] => 0%Q
  | x :: l' => (x + Qsum l')%Q
  end.

Module Engine.

(** Only the time arithmetic of the engine is modelled.  The engine also
    decodes a frame whenever it builds a video clip ([subclip] reads the
    frame at the new start, [freeze] the frame it holds); these reads, and
    the [OSError] of a read that fails, are left out. *)

(** A clip is a window on some footage: local time [t] of the clip shows
    the footage at time [start + t], for [duration] seconds. *)
Record clip : Type := Clip { start : Q; duration : Q }.

(** [Clip.subclip(t_start, t_end)].  A negative time counts from the end
    of the clip, a start beyond the end of the clip raises [ValueError],
    and the end is not checked.  The new clip is the old one shifted by
    [t_start] (the engine's [fl_time(lambda t: t + t_start)]). *)
Definition subclip (c : clip) (t_start : Q) (t_end : option Q) : result clip :=
  let t_start :=
    if Qlt_bool t_start 0 then (duration c + t_start)%Q else t_start in
  if Qlt_bool (duration c) t_start then Raise ValueError
  else
    let t_end :=
      match t_end with
      | None => duration c
      | Some e => if Qlt_bool e 0 then (duration c + e)%Q else e
      end in
    Ok {| start := (start c + t_start)%Q; duration := (t_end - t_start)%Q |}.

(** [fx.freeze(clip, t, freeze_duration)]: the clip before [t], a still of
    the frame at [t] held for [freeze_duration], and the clip after [t],
    concatenated.  The result is a clip on its own time axis. *)
Definition freeze (c : clip) (t : Q) (freeze_duration : Q) : result clip :=
  rbind (if Qeq_bool t 0 then Ok []
         else rbind (subclip c 0 (Some t)) (fun b => Ok [duration b]))
    (fun before =>
  rbind (if Qeq_bool t (duration c) then Ok []
         else rbind (subclip c t None) (fun a => Ok [duration a]))
    (fun after =>
  Ok {| start := 0; duration := Qsum (before ++ [freeze_duration] ++ after) |})).

End Engine.

Import Engine.

(* ================================================================== *)
(** * Images and the cursor clip *)
(* ================================================================== *)

Definition pixel : Type := Z * Z.
Definition colour : Type := Z * Z * Z.
Definition image : Type := pixel -> colour.
Definition point : Type := Q * Q.

Definition red : colour := (255, 0, 0).

(** The state of a [CursorClip] object.  [frame] is the PIL image held in
    [self.frame]: one buffer, created once in [__init__] and mutated by
    every call of [make_frame]. *)
Record CursorClip : Type := {
  trajectory : list point;
  cursor_duration : Q;
  frame : image;
  cc_duration : Q
}.

(** The object after its buffer has been drawn on: same object, same
    buffer, new contents. *)
Definition set_frame (self : CursorClip) (buffer : image) : CursorClip :=
  {| trajectory := trajectory self;
     cursor_duration := cursor_duration self;
     frame := buffer;
     cc_duration := cc_duration self |}.

Section Rendering.

(** The rasteriser of [ImageDraw.ellipse]: which pixels a filled ellipse
    with bounding box [(x0, y0, x1, y1)] covers. *)
Variable ellipse_covers : Q * Q * Q * Q -> pixel -> bool.

(** [draw.ellipse(box, fill=c)] on the image [img]. *)
Definition draw_ellipse (img : image) (box : Q * Q * Q * Q) (fill : colour)
  : image :=
  fun px => if ellipse_covers box px then fill else img px.

Definition marker_box (p : point) : Q * Q * Q * Q :=
  let '(x, y) := p in ((x - 5)%Q, (y - 5)%Q, (x + 5)%Q, (y + 5)%Q).

Definition sample_index (self : CursorClip) (t : Q) : result Z :=
  rbind (truediv t (cursor_duration self)) (fun q => Ok (int_of_float q)).

(** [make_frame(t)]: the returned array (a copy of the buffer after the
    call) and the object with its buffer updated. *)
Definition make_frame (self : CursorClip) (t : Q)
  : result (image * CursorClip) :=
  rbind (sample_index self t) (fun i =>
  if i <? Z.of_nat (length (trajectory self)) then
    rbind (getitem (trajectory self) i) (fun p =>
    let buffer := draw_ellipse (frame self) (marker_box p) red in
    Ok (buffer, set_frame self buffer))
  else Ok (frame self, self)).

(** [CursorClip.__init__].  The last line hands [make_frame] to
    [VideoClip.__init__], which calls [self.get_frame(0)] at once to read
    the size of the frames: the object leaves the constructor with the
    first call of [make_frame] already made on its buffer. *)
Definition CursorClip_init (frame0 : image) (traj : list point) (dur : Q)
  : result CursorClip :=
  rbind (truediv dur (inject_Z (Z.of_nat (length traj)))) (fun cd =>
  let self := {| trajectory := traj; cursor_duration := cd;
                 frame := frame0; cc_duration := dur |} in
  rbind (make_frame self 0) (fun '(_, self') => Ok self')).

(** The frames obtained by calling [make_frame] at the times [ts], in
    that order, on one clip. *)
Fixpoint render (self : CursorClip) (ts : list Q) : result (list image) :=
  match ts with
  | [] => Ok []
  | t :: ts' =>
      rbind (make_frame self t) (fun '(img, self') =>
      rbind (render self' ts') (fun imgs => Ok (img :: imgs)))
  end.

End Rendering.

(* ================================================================== *)
(** * The program *)
(* ================================================================== *)

(** What [cursor_clip.set_audio(audio)] yields: the cursor clip with the
    audio file as its sound track.  Its duration is the cursor clip's. *)
Record insertion_clip : Type := {
  cursor : CursorClip;
  audio_track : string
}.

(** The elements of [final_clips]. *)
Inductive segment : Type :=
  | Base (c : clip)
  | Insertion (ic : insertion_clip).

Definition segment_duration (s : segment) : Q :=
  match s with
  | Base c => duration c
  | Insertion ic => cc_duration (cursor ic)
  end.

(** [concatenate_videoclips(clips)] plays the clips one after the other. *)
Definition concatenate_videoclips (clips : list segment) : list segment := clips.

Definition total_duration (clips : list segment) : Q :=
  Qsum (map segment_duration clips).

(** The media operations, logged in the order the program performs them. *)
Inductive event : Type :=
  | LoadVideo (path : string)
  | LoadAudio (path : string)
  | ReadTrajectory (path : string)
  | GetFrame (t : Q)
  | WriteVideo (path : string) (clips : list segment).

(** The files the program reads, and the rasteriser of the imaging
    library ([ImageDraw.ellipse]). *)
Record world : Type := {
  listdir : string -> list string;
  video_duration : Q;
  video_frame : Q -> image;
  audio_duration : string -> Q;
  json_load : string -> list point;
  ellipse : Q * Q * Q * Q -> pixel -> bool
}.

(** Computations that log media operations and may raise. *)
Definition M (A : Type) : Type := list event * result A.

Definition ret {A} (a : A) : M A := ([], Ok a).

Definition bind {A B} (m : M A) (k : A -> M B) : M B :=
  match m with
  | (log, Ok a) => let '(log', r) := k a in (log ++ log', r)
  | (log, Raise e) => (log, Raise e)
  end.

Definition lift {A} (r : result A) : M A := ([], r).

Definition emit (e : event) : M unit := ([e], Ok tt).

Definition outcome {A} (m : M A) : result A := snd m.
Definition trace {A} (m : M A) : list event := fst m.

Declare Scope prog_scope.
Delimit Scope prog_scope with prog.
Notation "'let*' x ':=' m 'in' k" := (bind m (fun x => k))
  (at level 10, x pattern, m at level 100, k at level 200) : prog_scope.
Notation "'run' m 'in' k" := (bind m (fun _ => k))
  (at level 10, m at level 100, k at level 200) : prog_scope.

(** A local variable holding a clip: unbound, bound to [None], or bound to
    a clip. *)
Inductive local : Type :=
  | Unbound
  | PyNone
  | Bound (c : clip).

Definition base_name (path : string) : string := fst (splitext (basename path)).

Definition audio_files (w : world) (audio_dir : string) : list string :=
  sorted (map (join audio_dir)
              (List.filter (fun f => endswith f ".wav") (listdir w audio_dir))).

Definition json_files (w : world) (audio_dir : string) : list string :=
  sorted (map (join audio_dir)
              (List.filter (fun f => endswith f ".json") (listdir w audio_dir))).

(** The [assert] of line 45. *)
Definition names_match (audio json : list string) : bool :=
  bool_decide (set (map base_name audio) = set (map base_name json)).

(** The state of the first loop: the two accumulators and the locals
    [clip1] and [clip2]. *)
Record loop1_state : Type := {
  insertion_times : list Q;
  insertion_clips : list insertion_clip;
  clip1 : local;
  clip2 : local
}.

(** Lines 56 and 57: the file name without its extension, read as a
    number of milliseconds and turned into seconds. *)
Definition insertion_time_of (audio_file : string) : result Q :=
  let time_str := base_name audio_file in
  rbind (int_of_str time_str) (fun ms => Ok (inject_Z ms / 1000)%Q).

Local Open Scope prog_scope.

(** One iteration of the first loop (lines 55 to 83). *)
Definition loop1_body (w : world) (video : clip) (st : loop1_state)
  (audio_file json_file : string) : M loop1_state :=
  let* insertion_time := lift (insertion_time_of audio_file) in
  let* (c1, c2) :=
     (if Qlt_bool insertion_time (duration video) then
        let* a := lift (subclip video 0 (Some insertion_time)) in
        let* b := lift (subclip video insertion_time (Some (duration video))) in
        ret (a, Bound b)
      else ret (video, PyNone)) in
  run emit (LoadAudio audio_file) in
  let freeze_time := audio_duration w audio_file in
  let* held := lift (freeze c1 insertion_time freeze_time) in
  let* frozen_frame :=
    lift (subclip held (duration c1) (Some (duration c1 + freeze_time)%Q)) in
  run emit (ReadTrajectory json_file) in
  let traj := json_load w json_file in
  run emit (GetFrame insertion_time) in
  let frame0 := video_frame w insertion_time in
  let* cursor_clip :=
    lift (CursorClip_init (ellipse w) frame0 traj
            (audio_duration w audio_file)) in
  ret {| insertion_times := insertion_times st ++ [insertion_time];
         insertion_clips := insertion_clips st
                            ++ [{| cursor := cursor_clip; audio_track := audio_file |}];
         clip1 := Bound c1;
         clip2 := c2 |}.

Fixpoint loop1 (w : world) (video : clip) (st : loop1_state)
  (pairs : list (string * string)) : M loop1_state :=
  match pairs with
  | [] => ret st
  | (audio_file, json_file) :: rest =>
      let* st' := loop1_body w video st audio_file json_file in
      loop1 w video st' rest
  end.

Local Close Scope prog_scope.

(** Line 87:
    [[0] + [insertion_times[i] - insertion_times[i-1]
            for i in range(1, len(insertion_times))]]. *)
Definition relative_insertion_times (times : list Q) : list Q :=
  0%Q :: map (fun i => (nth i times 0 - nth (i - 1) times 0)%Q)
             (seq 1 (length times - 1)).

(** The state of the second loop: [video], [final_clips], and the locals
    [clip1] and [clip2]. *)
Record loop2_state : Type := {
  video : clip;
  final_clips : list segment;
  l2_clip1 : local;
  l2_clip2 : local
}.

(** The second loop (lines 88 to 93). *)
Fixpoint loop2 (st : loop2_state) (plan : list (Q * insertion_clip))
  : result loop2_state :=
  match plan with
  | [] => Ok st
  | (relative_insert_time, ic) :: rest =>
      rbind (subclip (video st) 0 (Some relative_insert_time)) (fun c1 =>
      rbind (subclip (video st) relative_insert_time
                     (Some (duration (video st)))) (fun c2 =>
      loop2 {| video := c2;
               final_clips := final_clips st ++ [Base c1; Insertion ic];
               l2_clip1 := Bound c1;
               l2_clip2 := Bound c2 |} rest))
  end.

(** Reading the local [clip2] at line 94. *)
Definition read_local (v : local) : result clip :=
  match v with
  | Unbound => Raise UnboundLocalError
  | PyNone => Raise AttributeError
  | Bound c => Ok c
  end.

Local Open Scope prog_scope.

Definition stitch_video_audio (w : world)
  (video_file audio_dir output_file : string) : M (list segment) :=
  let audio := audio_files w audio_dir in
  let json := json_files w audio_dir in
  run lift (if names_match audio json then Ok tt else Raise AssertionError) in
  run emit (LoadVideo video_file) in
  let video0 := {| start := 0; duration := video_duration w |} in
  let* st1 := loop1 w video0
                {| insertion_times := []; insertion_clips := [];
                   clip1 := Unbound; clip2 := Unbound |}
                (zip audio json) in
  let relative := relative_insertion_times (insertion_times st1) in
  let* st2 := lift (loop2 {| video := video0; final_clips := [];
                             l2_clip1 := clip1 st1; l2_clip2 := clip2 st1 |}
                          (zip relative (insertion_clips st1))) in
  let* tail := lift (read_local (l2_clip2 st2)) in
  let final_video := concatenate_videoclips (final_clips st2 ++ [Base tail]) in
  run emit (WriteVideo output_file final_video) in
  ret final_video.

Local Close Scope prog_scope.

(* ================================================================== *)
(** * The command line *)
(* ================================================================== *)

Module Cli.

(** The attributes of the namespace that [parse_args] returns. *)
Inductive dest : Type := video_file | narration_dir | output_file.

Global Instance dest_eq_dec : EqDecision dest.
Proof. solve_decision. Defined.

(** What [add_argument(flag, type=str, help=...)] registers.  [required]
    is the keyword of the same name; it defaults to [False] for a flag. *)
Record argument : Type := {
  flag : string;
  target : dest;
  required : bool
}.

Definition add_argument (parser : list argument) (name : string) (d : dest)
  : list argument :=
  parser ++ [{| flag := name; target := d; required := false |}].

(** Lines 103 to 106. *)
Definition parser : list argument :=
  add_argument
    (add_argument
       (add_argument [] "--video-file" video_file)
       "--narration-dir" narration_dir)
    "--output-file" output_file.

(** The parsed namespace: an attribute holds [None] until its flag is
    seen. *)
Definition namespace : Type := dest -> option string.

Definition empty_namespace : namespace := fun _ => None.

Definition store (ns : namespace) (d : dest) (v : string) : namespace :=
  fun d' => if decide (d' = d) then Some v else ns d'.

Definition find_flag (p : list argument) (tok : string) : option argument :=
  List.find (fun a => String.eqb (flag a) tok) p.

(** How a run of the parser ends. *)
Inductive parsed : Type :=
  | Parsed (ns : namespace)
  | UsageError          (* message on stderr, exit status 2 *)
  | HelpExit            (* [-h] or [--help]: exit status 0 *)
  | Unmodelled.         (* a token outside the modelled command lines *)

Definition is_help (tok : string) : bool :=
  String.eqb tok "-h" || String.eqb tok "--help".

(** [parse_args] on the command line after the program name.

    The modelled command lines are made of the three flags written in
    full, each followed by its value as a separate token, of [-h] and
    [--help], and of tokens that do not start with a dash.  On these the
    parser works from left to right: a flag takes the next token as its
    value, and it is an error at once when there is none or when the next
    token is itself a flag or a help option; a later occurrence of a flag
    overrides an earlier one; a help option ends the run; a token that does
    not start with a dash where a flag is expected is set aside ([extras])
    and reported as unrecognised once the whole line has been read.

    Every other token that starts with a dash ([--flag=value], an
    abbreviated flag, a negative number, [--]) is outside the model: the
    result is [Unmodelled] and nothing is said about what the parser
    does. *)
Fixpoint consume (p : list argument) (ns : namespace) (extras : bool)
  (argv : list string) : parsed :=
  match argv with
  | [] => if extras then UsageError else Parsed ns
  | tok :: rest =>
      if is_help tok then HelpExit
      else
        match find_flag p tok with
        | None =>
            if startswith tok "-" then Unmodelled
            else consume p ns true rest
        | Some a =>
            match rest with
            | [] => UsageError
            | v :: rest' =>
                if startswith v "-" then
                  if is_help v || bool_decide (is_Some (find_flag p v))
                  then UsageError else Unmodelled
                else consume p (store ns (target a) v) extras rest'
            end
        end
  end.

Definition missing_required (p : list argument) (ns : namespace) : bool :=
  existsb (fun a => required a && negb (bool_decide (is_Some (ns (target a))))) p.

Definition parse_args (p : list argument) (argv : list string) : parsed :=
  match consume p empty_namespace false argv with
  | Parsed ns => if missing_required p ns then UsageError else Parsed ns
  | r => r
  end.

(** How the script ends, as far as the entry point is concerned: either
    argument parsing ends it, or [stitch_video_audio] is called. *)
Inductive entry : Type :=
  | Exit (status : Z)
  | Call (video audio_dir output : option string)
  | OutsideModel.

(** Lines 107 to 109. *)
Definition main (argv : list string) : entry :=
  match parse_args parser argv with
  | Parsed args =>
      Call (args video_file) (args narration_dir) (args output_file)
  | UsageError => Exit 2
  | HelpExit => Exit 0
  | Unmodelled => OutsideModel
  end.

Definition flag_of (d : dest) : string :=
  match d with
  | video_file => "--video-file"
  | narration_dir => "--narration-dir"
  | output_file => "--output-file"
  end.

(** The command line that passes the given flags with the given values. *)
Definition command_line (args : list (dest * string)) : list string :=
  flat_map (fun '(d, v) => [flag_of d; v]) args.

Definition store_all (args : list (dest * string)) : namespace :=
  fold_left (fun ns '(d, v) => store ns d v) args empty_namespace.

End Cli.

(** ** Reading a result

    What a list of clips shows: base footage from one time of the video
    file to another, or the narration built from an audio file. *)
Inductive piece : Type :=
  | Footage (from to : Q)
  | Narration (audio : string).

Definition piece_of (s : segment) : piece :=
  match s with
  | Base c => Footage (Qred (start c)) (Qred (start c + duration c))
  | Insertion ic => Narration (audio_track ic)
  end.

Definition layout (clips : list segment) : list piece := map piece_of clips.

(** An all-black frame and an idealised rasteriser (the disc inscribed in
    the bounding box), to run the definitions on. *)
Definition blank : image := fun _ => (0, 0, 0).

Definition disc_covers (box : Q * Q * Q * Q) (px : pixel) : bool :=
  let '(x0, y0, x1, y1) := box in
  let cx := ((x0 + x1) / 2)%Q in
  let cy := ((y0 + y1) / 2)%Q in
  let r := ((x1 - x0) / 2)%Q in
  Qle_bool ((inject_Z (fst px) - cx) ^ 2 + (inject_Z (snd px) - cy) ^ 2)%Q
           (r ^ 2)%Q.

(** A directory whose audio files all last [len] seconds and whose
    trajectory files all hold [traj], next to a video of [dur] seconds. *)
Definition uniform_world (names : list string) (dur len : Q)
  (traj : list point) : world :=
  {| listdir := fun _ => names;
     video_duration := dur;
     video_frame := fun _ => blank;
     audio_duration := fun _ => len;
     json_load := fun _ => traj;
     ellipse := disc_covers |}.

Definition four_points : list point := [(10, 10); (20, 10); (20, 20); (10, 20)]%Q.

(** ** Auxiliary definitions for the proofs *)

(** What [join] puts in front of a relative file name. *)
Definition dir_prefix (a : string) : string :=
  if String.eqb a EmptyString || endswith a (String sep EmptyString)
  then a else (a ++ String sep EmptyString)%string.

(** The trajectory path that belongs to an audio path: same directory,
    same base name, extension [.json]. *)
Definition json_of (audio_dir audio_file : string) : string :=
  (dir_prefix audio_dir ++ base_name audio_file ++ ".json")%string.

(** The name of a file recorded at [n] milliseconds: [n] in decimal
    notation. *)
Definition decimal (n : N) : string := NilEmpty.string_of_uint (N.to_uint n).

(** The consecutive differences, by recursion on the list. *)
Fixpoint diffs (prev : Q) (times : list Q) : list Q :=
  match times with
  | [] => []
  | t :: rest => (t - prev)%Q :: diffs t rest
  end.

(** ** Reading a run *)

Definition is_write (e : event) : bool :=
  match e with
  | WriteVideo _ _ => true
  | _ => false
  end.

(** The media operations of one iteration of the first loop that runs to
    its end. *)
Definition unit_events (u : string * string) : list event :=
  match insertion_time_of (fst u) with
  | Ok t => [LoadAudio (fst u); ReadTrajectory (snd u); GetFrame t]
  | Raise _ => []
  end.

(** The pieces of footage of a list of clips, and the audio files of its
    narrations, both in order. *)
Fixpoint footage (clips : list segment) : list clip :=
  match clips with
  | [] => []
  | Base c :: rest => c :: footage rest
  | Insertion _ :: rest => footage rest
  end.

Fixpoint narrations (clips : list segment) : list string :=
  match clips with
  | [] => []
  | Base _ :: rest => narrations rest
  | Insertion ic :: rest => audio_track ic :: narrations rest
  end.

(** Footage, narration, footage, ..., footage. *)
Fixpoint alternates (clips : list segment) : bool :=
  match clips with
  | [Base _] => true
  | Base _ :: Insertion _ :: rest => alternates rest
  | _ => false
  end.

(** The pieces of footage are chained: each piece starts at the position
    of the footage where the one before it ends (its start plus its
    duration, whatever the sign of the duration); the first starts at
    [from] and the last ends at [to]. *)
Fixpoint chained (from : Q) (pieces : list clip) (to : Q) : Prop :=
  match pieces with
  | [] => (from == to)%Q
  | c :: rest =>
      (start c == from)%Q /\ chained (start c + duration c)%Q rest to
  end.

(** The two clips of lines 60 to 65. *)
Definition split_at (v : clip) (t : Q) : result (clip * local) :=
  if Qlt_bool t (duration v) then
    rbind (subclip v 0 (Some t)) (fun a =>
    rbind (subclip v t (Some (duration v))) (fun b => Ok (a, Bound b)))
  else Ok (v, PyNone).

(** The steps of line 72. *)
Definition hold (c1 : clip) (t len : Q) : result clip :=
  rbind (freeze c1 t len) (fun held =>
  subclip held (duration c1) (Some (duration c1 + len)%Q)).

(** An iteration of the first loop on the unit [u] runs to its end. *)
Definition unit_runs (w : world) (v : clip) (u : string * string) : Prop :=
  exists t c1 c2 held cc,
    insertion_time_of (fst u) = Ok t
    /\ split_at v t = Ok (c1, c2)
    /\ hold c1 t (audio_duration w (fst u)) = Ok held
    /\ CursorClip_init (ellipse w) (video_frame w t) (json_load w (snd u))
         (audio_duration w (fst u)) = Ok cc.

(* ================================================================== *)
(** * Basic facts *)
(* ================================================================== *)

Example endswith_wav : Py.endswith "3000.wav" ".wav" = true.
Proof. reflexivity. Qed.

Example splitext_plain : Py.splitext "3000.wav" = ("3000", ".wav")%string.
Proof. reflexivity. Qed.

Example splitext_hidden : Py.splitext ".wav" = (".wav", "")%string.
Proof. reflexivity. Qed.

Example splitext_dir : Py.splitext "a.b/c" = ("a.b/c", "")%string.
Proof. reflexivity. Qed.

Example basename_join : Py.basename (Py.join "rec/0" "3000.wav") = "3000.wav"%string.
Proof. reflexivity. Qed.

Example int_3000 : Py.int_of_str "3000" = Py.Ok 3000.
Proof. reflexivity. Qed.

Example int_us : Py.int_of_str " 1_000 " = Py.Ok 1000.
Proof. reflexivity. Qed.

Example int_bad : Py.int_of_str "1.5" = Py.Raise Py.ValueError.
Proof. reflexivity. Qed.

(** The control characters 28 to 31 are no white space for [int]. *)
Example int_unit_separator :
  Py.int_of_str (String (ascii_of_nat 31) "5") = Py.Raise Py.ValueError
  /\ Py.int_of_str (String (ascii_of_nat 9) "5") = Py.Ok 5.
Proof. split; reflexivity. Qed.

Example sorted_lex :
  Py.sorted ["200.wav"; "1000.wav"; "2000.wav"]%string
  = ["1000.wav"; "200.wav"; "2000.wav"]%string.
Proof. vm_compute. reflexivity. Qed.

Lemma Qlt_bool_iff (x y : Q) : Qlt_bool x y = true <-> (x < y)%Q.
Proof.
  unfold Qlt_bool. rewrite negb_true_iff.
  split.
  - intros H. apply Qnot_le_lt. intros Hle.
    apply Qle_bool_iff in Hle. congruence.
  - intros H. destruct (Qle_bool y x) eqn:E; [|reflexivity].
    apply Qle_bool_iff in E. lra.
Qed.

Lemma Qlt_bool_false_iff (x y : Q) : Qlt_bool x y = false <-> (y <= x)%Q.
Proof.
  unfold Qlt_bool. rewrite negb_false_iff. apply Qle_bool_iff.
Qed.

Lemma Qeq_bool_false_iff (x y : Q) : Qeq_bool x y = false <-> ~ (x == y)%Q.
Proof.
  split.
  - apply Qeq_bool_neq.
  - intros H. destruct (Qeq_bool x y) eqn:E; [|reflexivity].
    apply Qeq_bool_iff in E. contradiction.
Qed.

Lemma outcome_bind {A B} (m : M A) (k : A -> M B) :
  outcome (bind m k) = rbind (outcome m) (fun a => outcome (k a)).
Proof.
  destruct m as [log [a|e]]; simpl; [|reflexivity].
  destruct (k a); reflexivity.
Qed.

Lemma trace_bind_ok {A B} (m : M A) (k : A -> M B) a :
  outcome m = Ok a -> trace (bind m k) = trace m ++ trace (k a).
Proof.
  destruct m as [log [a'|e]]; simpl; intros H; [|discriminate].
  injection H as ->. destruct (k a); reflexivity.
Qed.

Lemma trace_bind_raise {A B} (m : M A) (k : A -> M B) e :
  outcome m = Raise e -> trace (bind m k) = trace m.
Proof.
  destruct m as [log [a'|e']]; simpl; intros H; [discriminate|reflexivity].
Qed.

(* ================================================================== *)
(** * Relative cut times (line 87) *)
(* ================================================================== *)

Lemma relative_insertion_times_length (times : list Q) :
  length (relative_insertion_times times) = S (length times - 1).
Proof.
  unfold relative_insertion_times. simpl.
  now rewrite length_map, length_seq.
Qed.

(** What line 87 computes: the first cut is the literal [0]; every later
    cut is the difference of two consecutive insertion times. *)
Lemma relative_insertion_times_nth (times : list Q) :
  nth 0 (relative_insertion_times times) 0%Q = 0%Q
  /\ forall i, (0 < i < length times)%nat ->
       nth i (relative_insertion_times times) 0%Q
       = (nth i times 0 - nth (i - 1) times 0)%Q.
Proof.
  split; [reflexivity|].
  intros i [Hpos Hlt]. unfold relative_insertion_times.
  destruct i as [|j]; [lia|]. cbn [nth].
  set (f := fun i : nat => (nth i times 0 - nth (i - 1) times 0)%Q).
  assert (Hj : (j < length times - 1)%nat) by lia.
  rewrite (nth_indep _ 0%Q (f 0%nat)) by now rewrite length_map, length_seq.
  rewrite map_nth, seq_nth by exact Hj.
  reflexivity.
Qed.

Lemma map_seq_diffs (pre : list Q) (prev : Q) (rest : list Q) :
  map (fun i => (nth i (pre ++ prev :: rest) 0 - nth (i - 1) (pre ++ prev :: rest) 0)%Q)
      (seq (S (length pre)) (length rest))
  = diffs prev rest.
Proof.
  revert pre prev. induction rest as [|t rest IH]; intros pre prev; [reflexivity|].
  cbn [length seq map diffs]. f_equal.
  - replace (S (length pre) - 1)%nat with (length pre) by lia.
    rewrite (app_nth2 pre) by lia.
    replace (S (length pre) - length pre)%nat with 1%nat by lia.
    rewrite (app_nth2 pre) by lia.
    replace (length pre - length pre)%nat with 0%nat by lia.
    reflexivity.
  - specialize (IH (pre ++ [prev]) t).
    rewrite length_app in IH. cbn [length] in IH.
    replace (length pre + 1)%nat with (S (length pre)) in IH by lia.
    rewrite <- IH.
    apply map_ext. intros i. now rewrite <- !app_assoc.
Qed.

Lemma relative_insertion_times_cons (t : Q) (rest : list Q) :
  relative_insertion_times (t :: rest) = 0%Q :: diffs t rest.
Proof.
  unfold relative_insertion_times. f_equal.
  cbn [length]. replace (S (length rest) - 1)%nat with (length rest) by lia.
  exact (map_seq_diffs [] t rest).
Qed.

(** C1 (the code departs from the claim).  With one narration at 3000 ms
    the first loop records the absolute insertion time 3 s, but the first
    relative cut that line 87 emits is 0, not 3. *)
Theorem first_relative_cut_is_zero :
  let w := uniform_world ["3000.wav"; "3000.json"] 10 2 four_points in
  exists st1,
    outcome (loop1 w {| start := 0; duration := video_duration w |}
               {| insertion_times := []; insertion_clips := [];
                  clip1 := Unbound; clip2 := Unbound |}
               (zip (audio_files w "rec") (json_files w "rec"))) = Ok st1
    /\ map Qred (insertion_times st1) = [3%Q]
    /\ relative_insertion_times (insertion_times st1) = [0%Q]
    /\ ~ (nth 0 (relative_insertion_times (insertion_times st1)) 0
          == nth 0 (insertion_times st1) 0)%Q.
Proof.
  eexists. split; [vm_compute; reflexivity|].
  split; [reflexivity|]. split; [reflexivity|].
  cbn. intros H. discriminate H.
Qed.

(* ================================================================== *)
(** * Where the narrations land *)
(* ================================================================== *)

(** C2 (the code departs from the claim).  Video of 10 s, one narration at
    3000 ms: the narration is preceded by an empty piece of footage, not
    by the footage from 0 s to 3 s, and the whole video follows it. *)
Theorem single_narration_is_placed_at_zero :
  let w := uniform_world ["3000.wav"; "3000.json"] 10 2 four_points in
  exists clips,
    outcome (stitch_video_audio w "video.mp4" "rec" "out.mp4") = Ok clips
    /\ layout clips
       = [Footage 0 0; Narration "rec/3000.wav"; Footage 0 10].
Proof.
  eexists. split; vm_compute; reflexivity.
Qed.

(** The order of the narrations is the order of the sorted path strings:
    200 ms comes after 1000 ms. *)
Lemma narrations_follow_string_order :
  let w := uniform_world ["200.wav"; "200.json"; "1000.wav"; "1000.json"]
             10 2 four_points in
  exists clips,
    outcome (stitch_video_audio w "video.mp4" "rec" "out.mp4") = Ok clips
    /\ layout clips
       = [Footage 0 0; Narration "rec/1000.wav"; Footage 0 (46 # 5);
          Narration "rec/200.wav"; Footage (46 # 5) 10].
Proof.
  eexists. split; vm_compute; reflexivity.
Qed.

(** C4 (the code departs from the claim).  Video of 5 s, one narration at
    6000 ms: [freeze] cuts the whole clip at 6 s, beyond its end, the
    engine raises, and nothing is written. *)
Theorem narration_beyond_the_end_raises :
  let w := uniform_world ["6000.wav"; "6000.json"] 5 2 four_points in
  let r := stitch_video_audio w "video.mp4" "rec" "out.mp4" in
  outcome r = Raise ValueError
  /\ trace r = [LoadVideo "video.mp4"; LoadAudio "rec/6000.wav"].
Proof.
  split; vm_compute; reflexivity.
Qed.

(** A narration exactly at the end of the video is processed, but it is
    placed before the footage, not after it. *)
Lemma narration_at_the_end_comes_first :
  let w := uniform_world ["5000.wav"; "5000.json"] 5 2 four_points in
  exists clips,
    outcome (stitch_video_audio w "video.mp4" "rec" "out.mp4") = Ok clips
    /\ layout clips
       = [Footage 0 0; Narration "rec/5000.wav"; Footage 0 5].
Proof.
  eexists. split; vm_compute; reflexivity.
Qed.

(** After an earlier narration, a narration exactly at the end of the 5 s
    video is placed at 4 s, and the last second of footage follows it. *)
Lemma narration_at_the_end_after_another :
  let w := uniform_world ["1000.wav"; "1000.json"; "5000.wav"; "5000.json"]
             5 2 four_points in
  exists clips,
    outcome (stitch_video_audio w "video.mp4" "rec" "out.mp4") = Ok clips
    /\ layout clips
       = [Footage 0 0; Narration "rec/1000.wav"; Footage 0 4;
          Narration "rec/5000.wav"; Footage 4 5].
Proof.
  eexists. split; vm_compute; reflexivity.
Qed.

(* ================================================================== *)
(** * The cursor clip *)
(* ================================================================== *)

(** ** Rounding to binary64 *)
Section Rounding.

Local Open Scope Q_scope.

Lemma rint_floor (x : Q) : (Qfloor x <= rint x <= Qfloor x + 1)%Z.
Proof.
  unfold rint. destruct (_ ?= _); [destruct (Z.even _)|..]; lia.
Qed.

Lemma rint_near (x : Q) : x - (1 # 2) <= inject_Z (rint x) <= x + (1 # 2).
Proof.
  pose proof (Qfloor_le x) as Hl. pose proof (Qlt_floor x) as Hu.
  rewrite inject_Z_plus in Hu. change (inject_Z 1) with 1 in Hu.
  unfold rint. destruct (x - inject_Z (Qfloor x) ?= 1 # 2) eqn:E.
  - apply Qeq_alt in E. destruct (Z.even _);
      [|rewrite inject_Z_plus; change (inject_Z 1) with 1]; lra.
  - apply Qlt_alt in E. lra.
  - apply Qgt_alt in E. rewrite inject_Z_plus. change (inject_Z 1) with 1. lra.
Qed.

Lemma rint_ge_int (x : Q) (z : Z) : inject_Z z <= x -> (z <= rint x)%Z.
Proof.
  intros H. pose proof (rint_floor x) as [Hf _].
  apply Z.le_trans with (Qfloor x); [|exact Hf].
  rewrite <- (Qfloor_Z z). now apply Qfloor_resp_le.
Qed.

Lemma pow2_pos (e : Z) : 0 < 2 ^ e.
Proof. apply Qpower_0_lt. reflexivity. Qed.

Lemma pow2_succ (e : Z) : 2 ^ (e + 1) == 2 * 2 ^ e.
Proof. rewrite Qpower_plus by discriminate. change (2 ^ 1) with 2. ring. Qed.

Lemma pow2_inject (n : Z) : (0 <= n)%Z -> inject_Z (2 ^ n) == 2 ^ n.
Proof. intros H. now rewrite Zpower_Qpower. Qed.

Lemma ilog2_spec (q : Q) : 0 < q -> 2 ^ ilog2 q <= q < 2 ^ (ilog2 q + 1).
Proof.
  intros Hq. destruct q as [n d]. unfold ilog2. cbn [Qnum Qden].
  assert (Hn : (0 < n)%Z) by (unfold Qlt in Hq; simpl in Hq; lia).
  set (a := Z.log2 n). set (b := Z.log2 (Z.pos d)).
  destruct (Z.log2_spec n Hn) as [Ha1 Ha2]. fold a in Ha1, Ha2.
  destruct (Z.log2_spec (Z.pos d) eq_refl) as [Hb1 Hb2]. fold b in Hb1, Hb2.
  assert (Ha0 : (0 <= a)%Z) by apply Z.log2_nonneg.
  assert (Hb0 : (0 <= b)%Z) by apply Z.log2_nonneg.
  rewrite Zle_Qle, pow2_inject in Ha1, Hb1 by assumption.
  rewrite Zlt_Qlt, pow2_inject in Ha2, Hb2 by lia.
  replace (Z.succ a) with (a + 1)%Z in Ha2 by lia.
  replace (Z.succ b) with (b + 1)%Z in Hb2 by lia.
  rewrite pow2_succ in Ha2, Hb2.
  pose proof (pow2_pos a) as HA. pose proof (pow2_pos b) as HB.
  assert (Hk : 2 ^ (a - b) * 2 ^ b == 2 ^ a).
  { rewrite <- Qpower_plus by discriminate. now replace (a - b + b)%Z with a by lia. }
  pose proof (pow2_pos (a - b)) as HK.
  assert (Eq : n # d == inject_Z n / inject_Z (Z.pos d)) by apply Qmake_Qdiv.
  assert (Hd : 0 < inject_Z (Z.pos d)) by (unfold Qlt; simpl; lia).
  set (N := inject_Z n) in *. set (D := inject_Z (Z.pos d)) in *.
  set (A := 2 ^ a) in *. set (B := 2 ^ b) in *. set (K := 2 ^ (a - b)) in *.
  assert (Hup : n # d < 2 * K).
  { rewrite Eq. apply Qlt_shift_div_r; [exact Hd|]. nra. }
  assert (Hlo : K < 2 * (n # d)).
  { rewrite Eq. unfold Qdiv. rewrite Qmult_assoc.
    apply Qlt_shift_div_l; [exact Hd|]. nra. }
  destruct (Qle_bool K (n # d)) eqn:E.
  - apply Qle_bool_iff in E. fold K. rewrite pow2_succ. fold K. split; assumption.
  - assert (Hlt : n # d < K).
    { apply Qnot_le_lt. intros H. apply Qle_bool_iff in H. congruence. }
    replace (a - b - 1 + 1)%Z with (a - b)%Z by lia. fold K.
    assert (E2 : 2 * 2 ^ (a - b - 1) == K).
    { rewrite <- pow2_succ. now replace (a - b - 1 + 1)%Z with (a - b)%Z by lia. }
    split; [|exact Hlt]. lra.
Qed.

(** The scaled significand lies in [2^52, 2^53). *)
Lemma scaled_range (q : Q) :
  0 < q ->
  let e := (ilog2 q - 52)%Z in
  q / 2 ^ e * 2 ^ e == q
  /\ inject_Z (2 ^ 52) <= q / 2 ^ e < inject_Z (2 ^ 53).
Proof.
  intros Hq e. destruct (ilog2_spec q Hq) as [Hl Hu].
  pose proof (pow2_pos e) as He.
  assert (E : q / 2 ^ e * 2 ^ e == q) by (field; lra).
  split; [exact E|].
  rewrite !pow2_inject by lia.
  assert (E1 : 2 ^ 52 * 2 ^ e == 2 ^ ilog2 q).
  { rewrite <- Qpower_plus by discriminate.
    now replace (52 + e)%Z with (ilog2 q) by (unfold e; lia). }
  assert (E2 : 2 ^ 53 * 2 ^ e == 2 ^ (ilog2 q + 1)).
  { rewrite <- Qpower_plus by discriminate.
    now replace (53 + e)%Z with (ilog2 q + 1)%Z by (unfold e; lia). }
  split.
  - apply Qle_shift_div_l; [exact He|]. rewrite E1. exact Hl.
  - apply Qlt_shift_div_r; [exact He|]. rewrite E2. exact Hu.
Qed.

Lemma round_pos_pos (q : Q) : 0 < q -> 0 < round_pos q.
Proof.
  intros Hq. destruct (scaled_range q Hq) as [_ [Hl _]].
  unfold round_pos. apply rint_ge_int in Hl.
  apply Qmult_lt_0_compat; [|apply pow2_pos].
  change 0 with (inject_Z 0). rewrite <- Zlt_Qlt. lia.
Qed.

Lemma round_pos_error (q : Q) :
  0 < q -> q * (1 - unit_roundoff) <= round_pos q <= q * (1 + unit_roundoff).
Proof.
  intros Hq. destruct (scaled_range q Hq) as [E [Hl _]].
  unfold round_pos. set (e := (ilog2 q - 52)%Z) in *.
  set (x := q / 2 ^ e) in *.
  pose proof (rint_near x) as [H1 H2].
  pose proof (pow2_pos e) as He.
  change (inject_Z (2 ^ 52)) with (4503599627370496 # 1) in Hl.
  assert (Hx : (1 # 2) <= x * unit_roundoff) by (unfold unit_roundoff; lra).
  set (P := 2 ^ e) in *. set (m := inject_Z (rint x)) in *.
  assert (G : x * P * (1 - unit_roundoff) <= m * P <= x * P * (1 + unit_roundoff)) by (split; nra).
  rewrite E in G. exact G.
Qed.

Lemma round_pos_ge_int (q : Q) (z : Z) :
  (0 < z <= 2 ^ 53)%Z -> inject_Z z <= q -> inject_Z z <= round_pos q.
Proof.
  intros [Hz0 Hz] Hzq.
  assert (Hq : 0 < q).
  { apply Qlt_le_trans with (inject_Z z); [|exact Hzq].
    change 0 with (inject_Z 0). now rewrite <- Zlt_Qlt. }
  destruct (scaled_range q Hq) as [E [Hl _]].
  unfold round_pos. set (e := (ilog2 q - 52)%Z) in *.
  set (x := q / 2 ^ e) in *.
  pose proof (pow2_pos e) as He.
  destruct (Z.le_gt_cases e 0) as [Hle|Hgt].
  - assert (Hint : inject_Z (z * 2 ^ (- e)) <= x).
    { rewrite inject_Z_mult, pow2_inject by lia.
      rewrite Qpower_opp. unfold x. unfold Qdiv.
      apply Qmult_le_compat_r; [exact Hzq|].
      apply Qlt_le_weak, Qinv_lt_0_compat, He. }
    apply rint_ge_int in Hint. rewrite Zle_Qle in Hint.
    rewrite inject_Z_mult, pow2_inject, Qpower_opp in Hint by lia.
    assert (E2 : inject_Z z == inject_Z z * / 2 ^ e * 2 ^ e) by (field; lra).
    rewrite E2. apply Qmult_le_compat_r; [exact Hint|lra].
  - apply rint_ge_int in Hl. rewrite Zle_Qle in Hl.
    assert (H2 : 2 <= 2 ^ e).
    { change 2 with (2 ^ 1) at 1. apply Qpower_le_compat_l; [lia|lra]. }
    rewrite Zle_Qle in Hz.
    change (inject_Z (2 ^ 53)) with (9007199254740992 # 1) in Hz.
    change (inject_Z (2 ^ 52)) with (4503599627370496 # 1) in Hl.
    set (P := 2 ^ e) in *. set (m := inject_Z (rint x)) in *. nra.
Qed.

Lemma fl_zero (q : Q) : q == 0 -> fl q = 0.
Proof.
  destruct q as [[|n|n] d]; unfold Qeq; simpl; intros H; try lia. reflexivity.
Qed.

Lemma fl_pos (q : Q) : 0 < q -> 0 < fl q.
Proof.
  intros Hq. unfold fl.
  destruct q as [[|n|n] d]; unfold Qlt in Hq; simpl in Hq; try lia.
  cbn [Qnum]. apply round_pos_pos. reflexivity.
Qed.

Lemma fl_neg (q : Q) : q < 0 -> fl q < 0.
Proof.
  intros Hq. unfold fl.
  destruct q as [[|n|n] d]; unfold Qlt in Hq; simpl in Hq; try lia.
  cbn [Qnum].
  assert (H : 0 < round_pos (- (Z.neg n # d))) by (apply round_pos_pos; reflexivity).
  lra.
Qed.

Lemma fl_nonneg (q : Q) : 0 <= q -> 0 <= fl q.
Proof.
  intros Hq. destruct (Qlt_le_dec 0 q) as [H|H].
  - apply Qlt_le_weak, fl_pos, H.
  - rewrite fl_zero by lra. lra.
Qed.

Lemma fl_nonzero (q : Q) : ~ q == 0 -> ~ fl q == 0.
Proof.
  intros Hq. destruct (Q_dec q 0) as [[H|H]|H]; [| |contradiction].
  - apply fl_neg in H. lra.
  - apply fl_pos in H. lra.
Qed.

Lemma fl_error (q : Q) : 0 <= q -> q * (1 - unit_roundoff) <= fl q <= q * (1 + unit_roundoff).
Proof.
  intros Hq. destruct (Qlt_le_dec 0 q) as [H|H].
  - unfold fl. destruct q as [[|n|n] d]; unfold Qlt in H; simpl in H; try lia.
    cbn [Qnum]. apply round_pos_error. reflexivity.
  - rewrite fl_zero by lra. assert (E : q == 0) by lra. rewrite E. lra.
Qed.

Lemma fl_ge_int (q : Q) (z : Z) :
  (0 <= z <= 2 ^ 53)%Z -> inject_Z z <= q -> inject_Z z <= fl q.
Proof.
  intros [Hz0 Hz] Hzq.
  destruct (Z.eq_dec z 0%Z) as [->|Hne].
  - apply fl_nonneg. exact Hzq.
  - assert (Hq : 0 < q).
    { apply Qlt_le_trans with (inject_Z z); [|exact Hzq].
      change 0 with (inject_Z 0). rewrite <- Zlt_Qlt. lia. }
    unfold fl. destruct q as [[|n|n] d]; unfold Qlt in Hq; simpl in Hq; try lia.
    cbn [Qnum]. apply round_pos_ge_int; [lia|exact Hzq].
Qed.

End Rounding.

Lemma int_of_float_floor (q : Q) : (0 <= q)%Q -> int_of_float q = Qfloor q.
Proof.
  destruct q as [n d]. unfold Qle, int_of_float, Qfloor. simpl.
  intros H. apply Z.quot_div_nonneg; lia.
Qed.

Lemma Qfloor_nonneg (q : Q) : (0 <= q)%Q -> 0 <= Qfloor q.
Proof.
  intros H. change 0 with (Qfloor 0). now apply Qfloor_resp_le.
Qed.

Lemma Qfloor_lt_Z (q : Q) (n : Z) : (q < inject_Z n)%Q -> Qfloor q < n.
Proof.
  intros H. rewrite Zlt_Qlt.
  apply Qle_lt_trans with q; [apply Qfloor_le|exact H].
Qed.

Lemma truediv_ok (x y : Q) : ~ (y == 0)%Q -> truediv x y = Ok (fl (x / y)).
Proof.
  intros H. unfold truediv.
  now rewrite (proj2 (Qeq_bool_false_iff y 0) H).
Qed.

Lemma getitem_in_range {A} (l : list A) (i : Z) :
  0 <= i < Z.of_nat (length l) ->
  exists x, nth_error l (Z.to_nat i) = Some x /\ getitem l i = Ok x.
Proof.
  intros [H0 H1]. unfold getitem.
  destruct (Z.ltb_spec i 0); [lia|].
  destruct (Z.leb_spec 0 i); [|lia].
  destruct (Z.ltb_spec i (Z.of_nat (length l))); [|lia]. simpl.
  destruct (nth_error l (Z.to_nat i)) as [x|] eqn:E; [eauto|].
  apply nth_error_None in E. lia.
Qed.

Section CursorFacts.

Variable ellipse_covers : Q * Q * Q * Q -> pixel -> bool.

Lemma length_as_float_pos (traj : list point) :
  traj <> [] -> (0 < inject_Z (Z.of_nat (length traj)))%Q.
Proof.
  intros Hne. destruct traj; [congruence|]. unfold Qlt. simpl. lia.
Qed.

Lemma cursor_duration_pos (traj : list point) (D : Q) :
  traj <> [] -> (0 < D)%Q ->
  (0 < fl (D / inject_Z (Z.of_nat (length traj))))%Q.
Proof.
  intros Hne HD. apply fl_pos. apply Qlt_shift_div_l.
  - now apply length_as_float_pos.
  - lra.
Qed.

Lemma sample_index_floor (self : CursorClip) (t : Q) :
  (0 < cursor_duration self)%Q -> (0 <= t)%Q ->
  sample_index self t = Ok (Qfloor (fl (t / cursor_duration self)))
  /\ 0 <= Qfloor (fl (t / cursor_duration self)).
Proof.
  intros Hcd Ht.
  assert (Hq : (0 <= fl (t / cursor_duration self))%Q).
  { apply fl_nonneg. apply Qle_shift_div_l; [exact Hcd|lra]. }
  split; [|now apply Qfloor_nonneg].
  unfold sample_index. rewrite truediv_ok by lra. simpl.
  now rewrite int_of_float_floor.
Qed.

(** The object that [__init__] returns: the buffer already carries the
    marker of the first point, drawn by the call [get_frame(0)] of the
    base class. *)
Lemma CursorClip_init_shape (img : image) (traj : list point) (D : Q) :
  traj <> [] -> (0 < D)%Q ->
  exists self0 p0,
    CursorClip_init ellipse_covers img traj D = Ok self0
    /\ trajectory self0 = traj
    /\ cursor_duration self0 = fl (D / inject_Z (Z.of_nat (length traj)))
    /\ cc_duration self0 = D
    /\ head traj = Some p0
    /\ frame self0 = draw_ellipse ellipse_covers img (marker_box p0) red.
Proof.
  intros Hne HD. destruct traj as [|p0 rest]; [congruence|].
  pose proof (cursor_duration_pos (p0 :: rest) D Hne HD) as Hcd.
  set (cd := fl (D / inject_Z (Z.of_nat (length (p0 :: rest))))) in *.
  set (self := {| trajectory := p0 :: rest; cursor_duration := cd;
                  frame := img; cc_duration := D |}).
  exists (set_frame self (draw_ellipse ellipse_covers img (marker_box p0) red)), p0.
  split; [|repeat split].
  unfold CursorClip_init.
  rewrite truediv_ok by (unfold Qeq; simpl; lia).
  cbn [rbind]. fold cd. fold self.
  unfold make_frame.
  destruct (sample_index_floor self 0) as [Hidx _]; [exact Hcd|lra|].
  rewrite Hidx. cbn [rbind cursor_duration self].
  change (fl (0 / cd)) with 0%Q.
  reflexivity.
Qed.

(** The rounded quotient of line 26 against the exact one: two roundings,
    each within the unit roundoff. *)
Lemma rounded_quotient_is_close (t D l : Q) :
  (0 <= t)%Q -> (0 < D)%Q -> (0 < l)%Q ->
  ((1 - (1 # 2251799813685248)) * (t * l / D) <= fl (t / fl (D / l))
   <= (1 + (1 # 2251799813685248)) * (t * l / D))%Q.
Proof.
  intros Ht HD Hl.
  assert (Hc0 : (0 < D / l)%Q) by (apply Qlt_shift_div_l; lra).
  pose proof (fl_pos _ Hc0) as Hcd.
  pose proof (fl_error (D / l) (Qlt_le_weak _ _ Hc0)) as [Hcl Hcu].
  set (c0 := (D / l)%Q) in *. set (cd := fl c0) in *.
  assert (Hq : (0 <= t / cd)%Q) by (apply Qle_shift_div_l; lra).
  pose proof (fl_error (t / cd) Hq) as [Hfl Hfu].
  set (q := (t / cd)%Q) in *. set (f := fl q) in *.
  set (X := (t * l / D)%Q).
  assert (HX : (0 <= X)%Q).
  { unfold X. apply Qle_shift_div_l; [exact HD|].
    assert (0 <= t * l)%Q by (apply Qmult_le_0_compat; lra). lra. }
  assert (Eq : (q * cd == t)%Q) by (unfold q; field; lra).
  assert (EX : (X * c0 == t)%Q) by (unfold X, c0; field; split; lra).
  unfold unit_roundoff in *.
  assert (Hup : (q * (1 + (1 # 9007199254740992))
                 <= (1 + (1 # 2251799813685248)) * X)%Q).
  { apply Qmult_le_r with cd; [exact Hcd|].
    assert (E1 : (q * (1 + (1 # 9007199254740992)) * cd
                  == X * (c0 * (1 + (1 # 9007199254740992))))%Q).
    { transitivity (q * cd * (1 + (1 # 9007199254740992)))%Q; [ring|].
      rewrite Eq, <- EX. ring. }
    assert (E2 : ((1 + (1 # 2251799813685248)) * X * cd
                  == X * ((1 + (1 # 2251799813685248)) * cd))%Q) by ring.
    rewrite E1, E2, !(Qmult_comm X).
    apply Qmult_le_compat_r; [lra|exact HX]. }
  assert (Hlo : ((1 - (1 # 2251799813685248)) * X
                 <= q * (1 - (1 # 9007199254740992)))%Q).
  { apply Qmult_le_r with cd; [exact Hcd|].
    assert (E1 : (q * (1 - (1 # 9007199254740992)) * cd
                  == X * (c0 * (1 - (1 # 9007199254740992))))%Q).
    { transitivity (q * cd * (1 - (1 # 9007199254740992)))%Q; [ring|].
      rewrite Eq, <- EX. ring. }
    assert (E2 : ((1 - (1 # 2251799813685248)) * X * cd
                  == X * ((1 - (1 # 2251799813685248)) * cd))%Q) by ring.
    rewrite E1, E2, !(Qmult_comm X).
    apply Qmult_le_compat_r; [lra|exact HX]. }
  split; lra.
Qed.

(** C5, as the code has it.  For a trajectory of [L >= 1] points and an
    audio duration [D > 0], the clip built by [__init__] samples, at every
    time [t >= 0], at the index [floor q], where [q] is the quotient of
    line 26 as the machine computes it: [t] divided by the stored
    [cursor_duration], itself the quotient [D / L] of line 22, each
    division rounded to binary64.  [q] is within a relative distance of
    [2^-51] of [t * L / D].  When the index is below [L], [make_frame]
    paints red the ellipse inscribed in the box [(x-5, y-5, x+5, y+5)]
    around [(x, y) = trajectory[index]] on the buffer, touches no other
    pixel, and returns the buffer; when it is not, the buffer is returned
    as it is and stays as it is. *)
Theorem trajectory_is_stretched_over_the_audio
  (img : image) (traj : list point) (D : Q) :
  traj <> [] -> (0 < D)%Q ->
  exists self0,
    CursorClip_init ellipse_covers img traj D = Ok self0
    /\ forall (buffer : image) (t : Q), (0 <= t)%Q ->
       let self := set_frame self0 buffer in
       let L := Z.of_nat (length traj) in
       let quotient := fl (t / fl (D / inject_Z L)) in
       let index := Qfloor quotient in
       sample_index self t = Ok index
       /\ 0 <= index
       /\ ((1 - (1 # 2251799813685248)) * (t * inject_Z L / D) <= quotient
           <= (1 + (1 # 2251799813685248)) * (t * inject_Z L / D))%Q
       /\ (index < L ->
           exists (x y : Q) (drawn : image),
             nth_error traj (Z.to_nat index) = Some (x, y)
             /\ make_frame ellipse_covers self t
                = Ok (drawn, set_frame self0 drawn)
             /\ forall px,
                  drawn px
                  = if ellipse_covers ((x - 5)%Q, (y - 5)%Q, (x + 5)%Q, (y + 5)%Q) px
                    then (255, 0, 0) else buffer px)
       /\ (L <= index ->
           make_frame ellipse_covers self t = Ok (buffer, self)).
Proof.
  intros Hne HD.
  destruct (CursorClip_init_shape img traj D Hne HD)
    as (self0 & p0 & Hinit & Htraj & Hcd0 & _).
  exists self0. split; [exact Hinit|].
  intros buffer t Ht self L quotient index.
  pose proof (cursor_duration_pos traj D Hne HD) as Hcd. fold L in Hcd.
  assert (Hself : cursor_duration self = fl (D / inject_Z L)) by exact Hcd0.
  assert (Htr : trajectory self = traj) by exact Htraj.
  destruct (sample_index_floor self t) as [Hidx H0]; [now rewrite Hself|exact Ht|].
  rewrite Hself in Hidx, H0. fold quotient in Hidx, H0. fold index in Hidx, H0.
  split; [exact Hidx|]. split; [exact H0|]. split; [|split].
  - apply rounded_quotient_is_close; [exact Ht|exact HD|].
    now apply length_as_float_pos.
  - intros Hlt.
    destruct (getitem_in_range traj index) as ([x y] & Hnth & Hget);
      [unfold L in Hlt; lia|].
    exists x, y,
      (draw_ellipse ellipse_covers buffer (marker_box (x, y)) red).
    split; [exact Hnth|]. split; [|reflexivity].
    unfold make_frame. rewrite Hidx, Htr. cbn [rbind].
    destruct (Z.ltb_spec index (Z.of_nat (length traj))); [|unfold L in Hlt; lia].
    rewrite Hget. reflexivity.
  - intros Hge. unfold make_frame. rewrite Hidx, Htr. cbn [rbind].
    destruct (Z.ltb_spec index (Z.of_nat (length traj))); [unfold L in Hge; lia|].
    reflexivity.
Qed.

Lemma make_frame_total (self : CursorClip) (t : Q) :
  (0 < cursor_duration self)%Q -> (0 <= t)%Q ->
  exists img self', make_frame ellipse_covers self t = Ok (img, self').
Proof.
  intros Hcd Ht. unfold make_frame, sample_index.
  rewrite truediv_ok by lra. simpl.
  assert (Hq : (0 <= fl (t / cursor_duration self))%Q).
  { apply fl_nonneg. apply Qle_shift_div_l; [exact Hcd|lra]. }
  rewrite int_of_float_floor by exact Hq.
  pose proof (Qfloor_nonneg _ Hq) as H0.
  destruct (Z.ltb_spec (Qfloor (fl (t / cursor_duration self)))
              (Z.of_nat (length (trajectory self)))) as [Hlt|Hge].
  - destruct (getitem_in_range (trajectory self) _ (conj H0 Hlt))
      as (p & _ & Hget).
    rewrite Hget. simpl. eauto.
  - eauto.
Qed.

(** One call leaves the object with the buffer it returns, and a red pixel
    of the buffer stays red. *)
Lemma make_frame_inv (self self' : CursorClip) (t : Q) (img : image) :
  make_frame ellipse_covers self t = Ok (img, self') ->
  frame self' = img
  /\ trajectory self' = trajectory self
  /\ cursor_duration self' = cursor_duration self
  /\ forall px, frame self px = red -> img px = red.
Proof.
  unfold make_frame. destruct (sample_index self t) as [i|e]; [|discriminate].
  simpl. destruct (i <? _).
  - destruct (getitem (trajectory self) i) as [p|e]; [|discriminate]. simpl.
    intros [= <- <-]. repeat split; try reflexivity.
    intros px Hpx. unfold draw_ellipse.
    destruct (ellipse_covers _ px); [reflexivity|exact Hpx].
  - intros [= <- <-]. repeat split; try reflexivity. auto.
Qed.

(** A call that draws the marker of [p] returns a buffer that is red on
    the marker. *)
Lemma make_frame_draws (self self' : CursorClip) (t : Q) (img : image)
  (i : Z) (p : point) :
  make_frame ellipse_covers self t = Ok (img, self') ->
  sample_index self t = Ok i ->
  i < Z.of_nat (length (trajectory self)) ->
  getitem (trajectory self) i = Ok p ->
  forall px, ellipse_covers (marker_box p) px = true -> img px = red.
Proof.
  unfold make_frame. intros H Hi Hlt Hget. rewrite Hi in H. simpl in H.
  destruct (Z.ltb_spec i (Z.of_nat (length (trajectory self)))); [|lia].
  rewrite Hget in H. simpl in H. injection H as <- _.
  intros px Hpx. unfold draw_ellipse. now rewrite Hpx.
Qed.

Lemma sample_index_same_duration (self self' : CursorClip) (t : Q) :
  cursor_duration self' = cursor_duration self ->
  sample_index self' t = sample_index self t.
Proof. unfold sample_index. now intros ->. Qed.

Lemma render_total (ts : list Q) : forall self,
  (0 < cursor_duration self)%Q -> Forall (fun t => (0 <= t)%Q) ts ->
  exists frames, render ellipse_covers self ts = Ok frames.
Proof.
  induction ts as [|t ts IH]; intros self Hcd Hts; [simpl; eauto|].
  apply Forall_cons in Hts as [Ht Hts].
  destruct (make_frame_total self t Hcd Ht) as (img & self' & Hmf).
  destruct (make_frame_inv _ _ _ _ Hmf) as (_ & _ & Hcd' & _).
  destruct (IH self') as (frames & Hr); [now rewrite Hcd'|exact Hts|].
  exists (img :: frames). simpl. rewrite Hmf. simpl. now rewrite Hr.
Qed.

Lemma render_cons_inv (self : CursorClip) (t : Q) (ts : list Q)
  (frames : list image) :
  render ellipse_covers self (t :: ts) = Ok frames ->
  exists img self' rest,
    make_frame ellipse_covers self t = Ok (img, self')
    /\ render ellipse_covers self' ts = Ok rest
    /\ frames = img :: rest.
Proof.
  simpl. destruct (make_frame ellipse_covers self t) as [[img self']|e] eqn:Hmf;
    [|discriminate].
  simpl. destruct (render ellipse_covers self' ts) as [rest|e] eqn:Hr;
    [|discriminate].
  simpl. intros [= <-]. exists img, self', rest. auto.
Qed.

Lemma render_length (ts : list Q) : forall self frames,
  render ellipse_covers self ts = Ok frames -> length frames = length ts.
Proof.
  induction ts as [|t ts IH]; intros self frames H.
  - injection H as <-. reflexivity.
  - apply render_cons_inv in H as (img & self' & rest & _ & Hr & ->).
    simpl. f_equal. eauto.
Qed.

(** What is red in the buffer is red in every frame rendered from it. *)
Lemma render_keeps_red (px : pixel) (ts : list Q) : forall self frames,
  render ellipse_covers self ts = Ok frames ->
  frame self px = red ->
  Forall (fun img : image => img px = red) frames.
Proof.
  induction ts as [|t ts IH]; intros self frames H Hpx.
  - injection H as <-. constructor.
  - apply render_cons_inv in H as (img & self' & rest & Hmf & Hr & ->).
    destruct (make_frame_inv _ _ _ _ Hmf) as (Hfr & _ & _ & Hkeep).
    constructor; [auto|]. apply (IH self'); [exact Hr|].
    rewrite Hfr. auto.
Qed.

Lemma render_marker_persists (px : pixel) (p : point) (ts : list Q) :
  forall self frames k j tk i img,
  render ellipse_covers self ts = Ok frames ->
  ts !! k = Some tk ->
  sample_index self tk = Ok i ->
  i < Z.of_nat (length (trajectory self)) ->
  getitem (trajectory self) i = Ok p ->
  ellipse_covers (marker_box p) px = true ->
  (k <= j)%nat -> frames !! j = Some img ->
  img px = red.
Proof.
  induction ts as [|t ts IH]; intros self frames k j tk i img H Hk Hi Hlt Hget Hc Hkj Hj;
    [discriminate Hk|].
  apply render_cons_inv in H as (img0 & self' & rest & Hmf & Hr & ->).
  destruct (make_frame_inv _ _ _ _ Hmf) as (Hfr & Htr & Hcd & _).
  destruct k as [|k].
  - injection Hk as ->.
    pose proof (make_frame_draws _ _ _ _ _ _ Hmf Hi Hlt Hget px Hc) as Hred.
    destruct j as [|j]; [injection Hj as <-; exact Hred|].
    simpl in Hj.
    pose proof (render_keeps_red px ts self' rest Hr) as Hall.
    rewrite Hfr in Hall. specialize (Hall Hred).
    rewrite Forall_forall in Hall. apply Hall.
    eapply list_elem_of_lookup_2. exact Hj.
  - destruct j as [|j]; [lia|]. simpl in Hk, Hj.
    apply (IH self' rest k j tk i img); try assumption.
    + now rewrite (sample_index_same_duration self self').
    + now rewrite Htr.
    + now rewrite Htr.
    + lia.
Qed.

(** C6.  The frames of one overlay are produced by calls of [make_frame]
    that all draw on the buffer of the same object.  Whatever the order of
    the requested times (non-decreasing or not): when the call for frame
    [k] draws the marker of [p], every pixel of that marker is red in
    frame [k] and in every later frame [j], so the region of the marker is
    the same in both. *)
Theorem markers_stay_visible
  (img0 : image) (traj : list point) (D : Q) (ts : list Q) :
  traj <> [] -> (0 < D)%Q -> Forall (fun t => (0 <= t)%Q) ts ->
  exists self0 frames,
    CursorClip_init ellipse_covers img0 traj D = Ok self0
    /\ render ellipse_covers self0 ts = Ok frames
    /\ length frames = length ts
    /\ forall (k j : nat) (tk : Q) (p : point) (imgk imgj : image),
         ts !! k = Some tk ->
         let index :=
           Qfloor (fl (tk / fl (D / inject_Z (Z.of_nat (length traj))))) in
         index < Z.of_nat (length traj) ->
         nth_error traj (Z.to_nat index) = Some p ->
         (k <= j)%nat ->
         frames !! k = Some imgk -> frames !! j = Some imgj ->
         forall px, ellipse_covers (marker_box p) px = true ->
           imgk px = red /\ imgj px = imgk px.
Proof.
  intros Hne HD Hts.
  destruct (CursorClip_init_shape img0 traj D Hne HD)
    as (self0 & p0 & Hinit & Htraj & Hcd0 & _).
  assert (Hcd : (0 < cursor_duration self0)%Q)
    by (rewrite Hcd0; now apply cursor_duration_pos).
  destruct (render_total ts self0 Hcd Hts) as (frames & Hr).
  exists self0, frames. split; [exact Hinit|]. split; [exact Hr|].
  split; [eapply render_length; exact Hr|].
  intros k j tk p imgk imgj Hk index Hlt Hnth Hkj Hfk Hfj px Hpx.
  assert (Htk : (0 <= tk)%Q).
  { rewrite Forall_forall in Hts. apply Hts.
    eapply list_elem_of_lookup_2. exact Hk. }
  destruct (sample_index_floor self0 tk Hcd Htk) as [Hidx H0].
  rewrite Hcd0 in Hidx, H0. fold index in Hidx, H0.
  assert (Hget : getitem (trajectory self0) index = Ok p).
  { rewrite Htraj.
    destruct (getitem_in_range traj index) as (p' & Hnth' & Hget);
      [unfold index in *; lia|].
    unfold index in *. congruence. }
  assert (Hred : forall j' img, (k <= j')%nat -> frames !! j' = Some img ->
                   img px = red).
  { intros j' img Hkj' Hj'.
    apply (render_marker_persists px p ts self0 frames k j' tk index img);
      try assumption.
    now rewrite Htraj. }
  split; [apply (Hred k); [lia|exact Hfk]|].
  rewrite (Hred j imgj Hkj Hfj). symmetry. apply (Hred k); [lia|exact Hfk].
Qed.

(** The marker of the first point is on every frame, whatever times are
    requested: it is drawn on the buffer when the object is built. *)
Lemma first_marker_is_on_every_frame
  (img0 : image) (traj : list point) (D : Q) (ts : list Q)
  (self0 : CursorClip) (frames : list image) (p0 : point) :
  traj <> [] -> (0 < D)%Q -> head traj = Some p0 ->
  CursorClip_init ellipse_covers img0 traj D = Ok self0 ->
  render ellipse_covers self0 ts = Ok frames ->
  forall img px, img ∈ frames ->
    ellipse_covers (marker_box p0) px = true -> img px = red.
Proof.
  intros Hne HD Hhead Hinit Hr img px Himg Hpx.
  destruct (CursorClip_init_shape img0 traj D Hne HD)
    as (self0' & p0' & Hinit' & _ & _ & _ & Hhead' & Hframe).
  assert (self0' = self0) by congruence. subst self0'.
  assert (p0' = p0) by congruence. subst p0'.
  assert (Hred : frame self0 px = red).
  { rewrite Hframe. unfold draw_ellipse. now rewrite Hpx. }
  pose proof (render_keeps_red px ts self0 frames Hr Hred) as Hall.
  rewrite Forall_forall in Hall. now apply Hall.
Qed.

End CursorFacts.

Lemma trajectory_is_stretched_witness :
  four_points <> [] /\ (0 < 2)%Q
  /\ exists self0,
       CursorClip_init disc_covers blank four_points 2 = Ok self0
       /\ sample_index (set_frame self0 blank) (3 # 4) = Ok 1
       /\ exists drawn,
            make_frame disc_covers (set_frame self0 blank) (3 # 4)
            = Ok (drawn, set_frame self0 drawn)
            /\ drawn (20, 10) = (255, 0, 0)
            /\ drawn (10, 10) = blank (10, 10).
Proof.
  assert (Hne : four_points <> []) by discriminate.
  assert (HD : (0 < 2)%Q) by reflexivity.
  split; [exact Hne|]. split; [exact HD|].
  destruct (trajectory_is_stretched_over_the_audio
              disc_covers blank four_points 2 Hne HD) as (self0 & Hinit & H).
  exists self0. split; [exact Hinit|].
  destruct (H blank (3 # 4)) as (Hidx & _ & _ & Hdraw & _); [discriminate|].
  split; [exact Hidx|].
  destruct Hdraw as (x & y & drawn & Hnth & Hmf & Hpx); [reflexivity|].
  vm_compute in Hnth. injection Hnth as <- <-.
  exists drawn. split; [exact Hmf|].
  split; rewrite Hpx; reflexivity.
Defined.

(** C5 as stated does not hold next to a sample boundary.  With three
    points on two seconds, the frame time [t = 2 - 2^-52] (the largest
    float below the audio duration) lies in [[0, D)] and
    [floor (t / (D / L))] is [2]; but [D / L] is rounded down to
    [0.6666666666666666], [t] divided by it is rounded up to [3.0], the
    sample index is [3], and no marker is drawn. *)
Lemma sample_index_is_rounded_at_a_boundary :
  let traj := [(10, 10); (20, 10); (20, 20)]%Q in
  let D := 2%Q in
  let t := (9007199254740991 # 4503599627370496)%Q in
  ((0 <= t)%Q /\ (t < D)%Q)
  /\ Qfloor (t / (D / inject_Z (Z.of_nat (length traj)))) = 2
  /\ exists self0,
       CursorClip_init disc_covers blank traj D = Ok self0
       /\ sample_index self0 t = Ok 3
       /\ sample_index self0 t
          <> Ok (Qfloor (t / (D / inject_Z (Z.of_nat (length traj)))))
       /\ make_frame disc_covers self0 t = Ok (frame self0, self0).
Proof.
  intros traj D t.
  split; [split; [discriminate|reflexivity]|]. split; [reflexivity|].
  destruct (CursorClip_init_shape disc_covers blank traj D)
    as (self0 & p0 & Hinit & Htraj & Hcd & _); [discriminate|reflexivity|].
  assert (Hidx : sample_index self0 t = Ok 3).
  { unfold sample_index. rewrite Hcd. vm_compute. reflexivity. }
  exists self0. split; [exact Hinit|]. split; [exact Hidx|].
  split; [rewrite Hidx; intros [= E]; vm_compute in E; discriminate E|].
  unfold make_frame. rewrite Hidx, Htraj. reflexivity.
Qed.

Lemma markers_stay_visible_witness :
  four_points <> [] /\ (0 < 2)%Q
  /\ Forall (fun t => (0 <= t)%Q) [0; 1 # 2; 1; 3 # 2]%Q
  /\ exists self0 frames,
       CursorClip_init disc_covers blank four_points 2 = Ok self0
       /\ render disc_covers self0 [0; 1 # 2; 1; 3 # 2]%Q = Ok frames
       /\ forall imgk imgj,
            frames !! 1%nat = Some imgk -> frames !! 3%nat = Some imgj ->
            imgk (20, 10) = red /\ imgj (20, 10) = imgk (20, 10).
Proof.
  assert (Hne : four_points <> []) by discriminate.
  assert (HD : (0 < 2)%Q) by reflexivity.
  assert (Hts : Forall (fun t => (0 <= t)%Q) [0; 1 # 2; 1; 3 # 2]%Q)
    by (repeat constructor; discriminate).
  split; [exact Hne|]. split; [exact HD|]. split; [exact Hts|].
  destruct (markers_stay_visible disc_covers blank four_points 2
              [0; 1 # 2; 1; 3 # 2]%Q Hne HD Hts)
    as (self0 & frames & Hinit & Hr & _ & H).
  exists self0, frames. split; [exact Hinit|]. split; [exact Hr|].
  intros imgk imgj Hk Hj.
  apply (H 1%nat 3%nat (1 # 2)%Q (20, 10)%Q imgk imgj);
    try reflexivity; try assumption; lia.
Defined.

(* ================================================================== *)
(** * The loader: validation and the empty directory *)
(* ================================================================== *)

Lemma set_eq_iff (A J : list string) :
  Py.set A = Py.set J <-> forall b, b ∈ A <-> b ∈ J.
Proof.
  unfold Py.set. rewrite set_eq.
  split; intros H b; specialize (H b);
    rewrite !elem_of_list_to_set in *; exact H.
Qed.

(** Two lists that are not equal as sets differ by an entry that is on
    one side only. *)
Lemma set_neq_witness (A J : list string) :
  Py.set A <> Py.set J ->
  exists b, (b ∈ A /\ b ∉ J) \/ (b ∈ J /\ b ∉ A).
Proof.
  intros Hne.
  destruct (decide (Forall (fun b => b ∈ J) A)) as [HAJ|HAJ].
  - destruct (decide (Forall (fun b => b ∈ A) J)) as [HJA|HJA].
    + exfalso. apply Hne. apply set_eq_iff. intros b.
      rewrite Forall_forall in HAJ, HJA. split; auto.
    + apply not_Forall_Exists in HJA; [|intros ?; apply _].
      apply Exists_exists in HJA as (b & Hb & Hnb). eauto.
  - apply not_Forall_Exists in HAJ; [|intros ?; apply _].
    apply Exists_exists in HAJ as (b & Hb & Hnb). eauto.
Qed.

Lemma names_match_iff (audio json : list string) :
  names_match audio json = true
  <-> forall b, b ∈ map base_name audio <-> b ∈ map base_name json.
Proof.
  unfold names_match. rewrite bool_decide_eq_true. apply set_eq_iff.
Qed.

Lemma names_mismatch_iff (audio json : list string) :
  names_match audio json = false
  <-> exists b, (b ∈ map base_name audio /\ b ∉ map base_name json)
             \/ (b ∈ map base_name json /\ b ∉ map base_name audio).
Proof.
  unfold names_match. rewrite bool_decide_eq_false. split.
  - apply set_neq_witness.
  - intros (b & Hb) Heq. rewrite set_eq_iff in Heq.
    specialize (Heq b). tauto.
Qed.

(** The run when the assertion fails, and how it starts when it holds. *)
Lemma stitch_assert_fails (w : world) (vf dir out : string) :
  names_match (audio_files w dir) (json_files w dir) = false ->
  stitch_video_audio w vf dir out = ([], Raise AssertionError).
Proof.
  intros H. unfold stitch_video_audio. rewrite H. reflexivity.
Qed.

Lemma stitch_assert_holds (w : world) (vf dir out : string) :
  names_match (audio_files w dir) (json_files w dir) = true ->
  exists rest, trace (stitch_video_audio w vf dir out) = LoadVideo vf :: rest.
Proof.
  intros H. unfold stitch_video_audio. rewrite H.
  unfold bind at 1. unfold lift.
  match goal with |- context [bind (emit ?e) ?k] =>
    destruct (bind (emit e) k) as [log r] eqn:E end.
  unfold bind, emit in E.
  match type of E with (let '(_, _) := ?m in _) = _ =>
    destruct m as [log' r'] end.
  injection E as <- <-. simpl. eauto.
Qed.

(** C7.  The run stops with the assertion error of line 45, before any
    media operation, exactly when some base name is on one side only
    (whichever side); and it goes on to load the video exactly when the
    audio and trajectory base names are the same. *)
Theorem validation_decides_before_media (w : world) (vf dir out : string) :
  let r := stitch_video_audio w vf dir out in
  let A := map base_name (audio_files w dir) in
  let J := map base_name (json_files w dir) in
  ((trace r = [] /\ outcome r = Raise AssertionError)
   <-> exists b, (b ∈ A /\ b ∉ J) \/ (b ∈ J /\ b ∉ A))
  /\ ((exists rest, trace r = LoadVideo vf :: rest)
      <-> forall b, b ∈ A <-> b ∈ J).
Proof.
  intros r A J. unfold A, J.
  rewrite <- names_mismatch_iff, <- names_match_iff.
  destruct (names_match (audio_files w dir) (json_files w dir)) eqn:E.
  - destruct (stitch_assert_holds w vf dir out E) as (rest & Hrest).
    fold r in Hrest. split.
    + split; [|discriminate]. intros [Ht _]. rewrite Ht in Hrest. discriminate.
    + split; [reflexivity|]. intros _. eauto.
  - pose proof (stitch_assert_fails w vf dir out E) as Hr. fold r in Hr.
    rewrite Hr. simpl. split.
    + split; [reflexivity|]. auto.
    + split; [|discriminate]. intros (rest & Hrest). discriminate.
Qed.

Lemma filter_none {A} (f : A -> bool) (l : list A) :
  (forall x, x ∈ l -> f x = false) -> List.filter f l = [].
Proof.
  induction l as [|x l IH]; intros H; [reflexivity|].
  simpl. rewrite (H x) by constructor.
  apply IH. intros y Hy. apply H. now constructor.
Qed.

(** C9, as the code has it.  A directory without [.wav] files gives no
    output, in one of two ways.  When it holds no [.json] file either, the
    assertion of line 45 passes, the video is loaded, both loops are
    skipped, line 94 reads the local [clip2] that was never assigned, and
    the run stops with the unbound-variable error.  When it holds a [.json]
    file, the run stops at the assertion, before the video is loaded. *)
Theorem no_narration_gives_no_output (w : world) (vf dir out : string) :
  (forall f, f ∈ listdir w dir -> endswith f ".wav" = false) ->
  let r := stitch_video_audio w vf dir out in
  ((forall f, f ∈ listdir w dir -> endswith f ".json" = false) ->
   outcome r = Raise UnboundLocalError /\ trace r = [LoadVideo vf])
  /\ ((exists f, f ∈ listdir w dir /\ endswith f ".json" = true) ->
      outcome r = Raise AssertionError /\ trace r = []).
Proof.
  intros Hwav r.
  assert (Haudio : audio_files w dir = []).
  { unfold audio_files. now rewrite filter_none. }
  split.
  - intros Hjson.
    assert (Hj : json_files w dir = []).
    { unfold json_files. now rewrite filter_none. }
    unfold r, stitch_video_audio. rewrite Haudio, Hj. split; reflexivity.
  - intros (f & Hf & Hends).
    assert (Hj : join dir f ∈ json_files w dir).
    { unfold json_files, sorted. rewrite merge_sort_Permutation.
      apply list_elem_of_fmap. exists f. split; [reflexivity|].
      apply list_elem_of_In, filter_In. split; [|exact Hends].
      now apply list_elem_of_In. }
    assert (Hm : names_match (audio_files w dir) (json_files w dir) = false).
    { apply names_mismatch_iff. exists (base_name (join dir f)). right.
      split; [apply list_elem_of_fmap; eauto|].
      rewrite Haudio. cbn [map]. apply not_elem_of_nil. }
    unfold r. rewrite (stitch_assert_fails w vf dir out Hm). split; reflexivity.
Qed.

Lemma no_narration_gives_no_output_witness :
  let w := uniform_world ["notes.txt"] 10 2 four_points in
  (forall f, f ∈ listdir w "rec" -> endswith f ".wav" = false)
  /\ outcome (stitch_video_audio w "video.mp4" "rec" "out.mp4")
     = Raise UnboundLocalError
  /\ trace (stitch_video_audio w "video.mp4" "rec" "out.mp4")
     = [LoadVideo "video.mp4"].
Proof.
  intros w.
  assert (H1 : forall f, f ∈ listdir w "rec" -> endswith f ".wav" = false).
  { apply Forall_forall. repeat constructor. }
  assert (H2 : forall f, f ∈ listdir w "rec" -> endswith f ".json" = false).
  { apply Forall_forall. repeat constructor. }
  split; [exact H1|].
  exact (proj1 (no_narration_gives_no_output w "video.mp4" "rec" "out.mp4" H1)
           H2).
Defined.

(** C9 as stated does not hold: a directory with a trajectory file and no
    [.wav] file has no narration unit, and the run fails with the assertion
    error, not with the unbound-variable error. *)
Lemma orphan_trajectory_raises_assertion :
  let w := uniform_world ["1000.json"] 10 2 four_points in
  let r := stitch_video_audio w "video.mp4" "rec" "out.mp4" in
  audio_files w "rec" = []
  /\ zip (audio_files w "rec") (json_files w "rec") = []
  /\ r = ([], Raise AssertionError)
  /\ outcome r <> Raise UnboundLocalError.
Proof.
  intros w r. split; [vm_compute; reflexivity|].
  split; [vm_compute; reflexivity|].
  split; [vm_compute; reflexivity|].
  vm_compute. discriminate.
Qed.

(* ================================================================== *)
(** * The command line *)
(* ================================================================== *)

Lemma find_flag_of (d : Cli.dest) :
  Cli.find_flag Cli.parser (Cli.flag_of d)
  = Some {| Cli.flag := Cli.flag_of d; Cli.target := d; Cli.required := false |}.
Proof. destruct d; reflexivity. Qed.

Lemma flag_is_not_help (d : Cli.dest) :
  Cli.is_help (Cli.flag_of d) = false.
Proof. destruct d; reflexivity. Qed.

Lemma no_argument_is_required (ns : Cli.namespace) :
  Cli.missing_required Cli.parser ns = false.
Proof. reflexivity. Qed.

Lemma consume_command_line (args : list (Cli.dest * string)) :
  forall ns,
  Forall (fun a => startswith (snd a) "-" = false) args ->
  Cli.consume Cli.parser ns false (Cli.command_line args)
  = Cli.Parsed (fold_left (fun ns '(d, v) => Cli.store ns d v) args ns).
Proof.
  induction args as [|[d v] args IH]; intros ns Hargs; [reflexivity|].
  apply Forall_cons in Hargs as [Hv Hargs]. simpl in Hv.
  change (Cli.command_line ((d, v) :: args))
    with (Cli.flag_of d :: v :: Cli.command_line args).
  cbn [Cli.consume]. rewrite flag_is_not_help, find_flag_of, Hv.
  cbn [Cli.target fold_left]. apply IH. exact Hargs.
Qed.

Lemma store_other (args : list (Cli.dest * string)) (d : Cli.dest) :
  forall ns,
  d ∉ map fst args ->
  fold_left (fun ns '(d, v) => Cli.store ns d v) args ns d = ns d.
Proof.
  induction args as [|[d' v] args IH]; intros ns Hd; [reflexivity|].
  cbn [fold_left]. rewrite IH.
  - unfold Cli.store. destruct (decide (d = d')) as [->|]; [|reflexivity].
    exfalso. apply Hd. simpl. constructor.
  - intros Hin. apply Hd. simpl. now constructor.
Qed.

(** C8, as the code has it.  No flag is required: a command line made of
    any of the three flags, each followed by a value that does not start
    with a dash, is accepted whichever flags it leaves out; the program
    goes on to call [stitch_video_audio], and a flag that was left out is
    passed as [None]. *)
Theorem flags_are_optional (args : list (Cli.dest * string)) :
  Forall (fun a => startswith (snd a) "-" = false) args ->
  Cli.main (Cli.command_line args)
  = Cli.Call (Cli.store_all args Cli.video_file)
             (Cli.store_all args Cli.narration_dir)
             (Cli.store_all args Cli.output_file)
  /\ forall d, d ∉ map fst args -> Cli.store_all args d = None.
Proof.
  intros Hargs. split.
  - unfold Cli.main, Cli.parse_args.
    rewrite consume_command_line by exact Hargs.
    rewrite no_argument_is_required. reflexivity.
  - intros d Hd. unfold Cli.store_all. now rewrite store_other.
Qed.

Lemma flags_are_optional_witness :
  Forall (fun a => startswith (snd a) "-" = false)
         [(Cli.output_file, "out.mp4"%string)]
  /\ Cli.main ["--output-file"; "out.mp4"]%string
     = Cli.Call None None (Some "out.mp4"%string).
Proof.
  assert (H : Forall (fun a => startswith (snd a) "-" = false)
                     [(Cli.output_file, "out.mp4"%string)])
    by (repeat constructor).
  split; [exact H|].
  exact (proj1 (flags_are_optional [(Cli.output_file, "out.mp4"%string)] H)).
Defined.

(** C8 as stated does not hold: the command line without any flag, and
    the one with the video flag only, are not usage errors. *)
Lemma missing_flags_are_not_usage_errors :
  Cli.main [] = Cli.Call None None None
  /\ Cli.main ["--video-file"; "video.mp4"]%string
     = Cli.Call (Some "video.mp4"%string) None None
  /\ Cli.main [] <> Cli.Exit 2.
Proof.
  split; [reflexivity|]. split; [reflexivity|]. discriminate.
Qed.

(** Some other command lines: a token that is no flag and a flag without
    its value are usage errors; a help option after an unrecognised token
    still ends the run with status 0; the form [--flag=value] is outside
    the model. *)
Lemma usage_errors :
  Cli.main ["video.mp4"]%string = Cli.Exit 2
  /\ Cli.main ["--video-file"]%string = Cli.Exit 2
  /\ Cli.main ["--video-file"; "--output-file"; "out.mp4"]%string = Cli.Exit 2
  /\ Cli.main ["video.mp4"; "-h"]%string = Cli.Exit 0
  /\ Cli.main ["--video-file=video.mp4"]%string = Cli.OutsideModel.
Proof. repeat split; reflexivity. Qed.

(* ================================================================== *)
(** * Duration of the output *)
(* ================================================================== *)

Lemma subclip_ok (c : clip) (ts te : Q) :
  (0 <= ts)%Q -> (ts <= duration c)%Q -> (0 <= te)%Q ->
  subclip c ts (Some te)
  = Ok {| start := (start c + ts)%Q; duration := (te - ts)%Q |}.
Proof.
  intros H0 H1 H2. unfold subclip.
  rewrite (proj2 (Qlt_bool_false_iff ts 0) H0).
  rewrite (proj2 (Qlt_bool_false_iff (duration c) ts) H1).
  rewrite (proj2 (Qlt_bool_false_iff te 0) H2).
  reflexivity.
Qed.

(** When [subclip] succeeds on both sides of a cut, the two parts last as
    long as the clip, also when the cut is negative and counts from the
    end. *)
Lemma cut_conserves_duration (c c1 c2 : clip) (t : Q) :
  subclip c 0 (Some t) = Ok c1 ->
  subclip c t (Some (duration c)) = Ok c2 ->
  (duration c1 + duration c2 == duration c)%Q.
Proof.
  unfold subclip.
  replace (Qlt_bool 0 0) with false by reflexivity.
  destruct (Qlt_bool (duration c) 0) eqn:Hd; [discriminate|].
  apply Qlt_bool_false_iff in Hd.
  intros H1 H2. injection H1 as <-.
  destruct (Qlt_bool t 0) eqn:Ht.
  - destruct (Qlt_bool (duration c) (duration c + t)); [discriminate|].
    injection H2 as <-. simpl. ring.
  - destruct (Qlt_bool (duration c) t); [discriminate|].
    injection H2 as <-. simpl. ring.
Qed.

Lemma Qsum_app (l1 l2 : list Q) : (Qsum (l1 ++ l2) == Qsum l1 + Qsum l2)%Q.
Proof.
  induction l1 as [|x l1 IH]; cbn [app Qsum]; [ring|]. rewrite IH. ring.
Qed.

Lemma total_duration_app (l1 l2 : list segment) :
  (total_duration (l1 ++ l2) == total_duration l1 + total_duration l2)%Q.
Proof. unfold total_duration. rewrite map_app. apply Qsum_app. Qed.

(** The second loop neither loses nor repeats running time: whenever it
    completes, the clips it has appended and the footage it has left last
    as long as what it started from plus the narrations. *)
Lemma loop2_conserves_duration (plan : list (Q * insertion_clip)) :
  forall st st',
  loop2 st plan = Ok st' ->
  (total_duration (final_clips st') + duration (video st')
   == total_duration (final_clips st) + duration (video st)
      + Qsum (map (fun p => cc_duration (cursor (snd p))) plan))%Q
  /\ (plan <> [] -> l2_clip2 st' = Bound (video st')).
Proof.
  induction plan as [|[r ic] plan IH]; intros st st' H.
  - injection H as <-. split; [cbn [map Qsum]; ring|congruence].
  - cbn [loop2] in H.
    destruct (subclip (video st) 0 (Some r)) as [c1|e] eqn:H1; [|discriminate].
    destruct (subclip (video st) r (Some (duration (video st)))) as [c2|e] eqn:H2;
      [|discriminate].
    cbn [rbind] in H.
    pose proof (cut_conserves_duration _ _ _ _ H1 H2) as Hcut.
    destruct (IH _ _ H) as [Hsum Hbound]. cbn [video final_clips] in Hsum.
    split.
    + rewrite Hsum, total_duration_app. unfold total_duration at 2.
      cbn [map Qsum segment_duration snd]. rewrite <- Hcut. ring.
    + intros _. destruct plan as [|p plan].
      * injection H as <-. reflexivity.
      * apply Hbound. discriminate.
Qed.

Lemma diffs_of_sorted (D : Q) (rest : list Q) : forall t0,
  Sorted Qle (t0 :: rest) ->
  Forall (fun t => (t <= D)%Q) (t0 :: rest) ->
  Forall (fun r => (0 <= r)%Q) (diffs t0 rest)
  /\ (Qsum (diffs t0 rest) <= D - t0)%Q.
Proof.
  induction rest as [|t1 rest IH]; intros t0 Hs Hlt.
  - apply Forall_cons in Hlt as [Ht0 _]. split; [constructor|].
    cbn [diffs Qsum]. lra.
  - apply Sorted_inv in Hs as [Hs Hhd]. apply HdRel_inv in Hhd.
    apply Forall_cons in Hlt as [Ht0 Hlt].
    destruct (IH t1 Hs Hlt) as [Hpos Hsum].
    cbn [diffs Qsum]. split; [constructor; [lra|exact Hpos]|lra].
Qed.

Lemma diffs_length (rest : list Q) : forall t0,
  length (diffs t0 rest) = length rest.
Proof.
  induction rest as [|t rest IH]; intros t0; cbn [diffs length]; [reflexivity|].
  now rewrite IH.
Qed.

Ltac step := rewrite outcome_bind; cbn [lift emit ret outcome snd rbind].

(** C3.  The claim fails on the code.  With the recordings [200.wav],
    [1000.wav] and [2000.wav] next to a video of 10 s there are three
    units, inserted at 0.2 s, 1 s and 2 s, all below the duration of the
    video.  Lines 40 and 42 sort the paths as strings, which puts 1000
    before 200 before 2000; the second relative cut of line 87 is negative,
    the third one lies beyond what is left of the footage, [subclip]
    raises at line 90 and nothing is written: there is no output whose
    duration could be the sum. *)
Theorem string_sorted_units_make_the_run_raise :
  let w := uniform_world
             ["200.wav"; "200.json"; "1000.wav"; "1000.json";
              "2000.wav"; "2000.json"] 10 2 four_points in
  let r := stitch_video_audio w "video.mp4" "rec" "out.mp4" in
  audio_files w "rec" = ["rec/1000.wav"; "rec/200.wav"; "rec/2000.wav"]%string
  /\ map insertion_time_of (audio_files w "rec")
     = [Ok (1000 # 1000); Ok (200 # 1000); Ok (2000 # 1000)]%Q
  /\ Forall (fun t => (0 <= t)%Q /\ (t < video_duration w)%Q)
            [1000 # 1000; 200 # 1000; 2000 # 1000]%Q
  /\ relative_insertion_times [1000 # 1000; 200 # 1000; 2000 # 1000]%Q
     = [0; -800000 # 1000000; 1800000 # 1000000]%Q
  /\ outcome r = Raise ValueError
  /\ Forall (fun ev => is_write ev = false) (trace r).
Proof.
  intros w r.
  split; [vm_compute; reflexivity|]. split; [vm_compute; reflexivity|].
  split; [repeat constructor; discriminate|].
  split; [vm_compute; reflexivity|]. split; [vm_compute; reflexivity|].
  vm_compute. repeat constructor.
Qed.

(* ================================================================== *)
(** * Pairing audio and trajectory files *)
(* ================================================================== *)

Section StringFacts.

Local Open Scope string_scope.

Lemma str_app_cons (a : ascii) (s t : string) : String a s ++ t = String a (s ++ t).
Proof. reflexivity. Qed.

Lemma str_app_nil_l (s : string) : "" ++ s = s.
Proof. reflexivity. Qed.

Lemma str_app_assoc (s t u : string) : (s ++ t) ++ u = s ++ (t ++ u).
Proof.
  induction s as [|a s IH]; [reflexivity|].
  now rewrite !str_app_cons, IH.
Qed.

Lemma str_length_app (s t : string) :
  String.length (s ++ t) = (String.length s + String.length t)%nat.
Proof.
  induction s as [|a s IH]; [reflexivity|].
  rewrite str_app_cons. simpl. now rewrite IH.
Qed.

Lemma str_compare_refl (s : string) : String.compare s s = Eq.
Proof.
  induction s as [|a s IH]; [reflexivity|]. simpl.
  unfold Ascii.compare. now rewrite N.compare_refl.
Qed.

(** A common prefix does not change the order. *)
Lemma str_compare_app (p s t : string) :
  String.compare (p ++ s) (p ++ t) = String.compare s t.
Proof.
  induction p as [|a p IH]; [reflexivity|].
  rewrite !str_app_cons. simpl.
  unfold Ascii.compare. now rewrite N.compare_refl.
Qed.

Lemma str_le_app (p s t : string) : String.le (p ++ s) (p ++ t) <-> String.le s t.
Proof. unfold String.le, String.leb. now rewrite str_compare_app. Qed.

Lemma has_char_app (c : ascii) (s t : string) :
  has_char c (s ++ t) = has_char c s || has_char c t.
Proof.
  induction s as [|a s IH]; [reflexivity|].
  rewrite str_app_cons. simpl. rewrite IH. now rewrite orb_assoc.
Qed.

(** Before the first dot of both, the order of two strings does not
    depend on what follows the dot. *)
Lemma compare_before_dot (b1 : string) : forall (b2 e e' : string),
  has_char dot b1 = false -> has_char dot b2 = false ->
  String.compare (b1 ++ String dot e) (b2 ++ String dot e)
  = String.compare (b1 ++ String dot e') (b2 ++ String dot e').
Proof.
  induction b1 as [|a1 b1 IH]; intros [|a2 b2] e e' H1 H2.
  - rewrite !str_app_nil_l, !str_compare_refl. reflexivity.
  - rewrite !str_app_nil_l, !str_app_cons. simpl in *.
    apply orb_false_iff in H2 as [Ha2 _].
    apply Ascii.eqb_neq in Ha2.
    destruct (Ascii.compare dot a2) eqn:E; try reflexivity.
    apply Ascii.compare_eq_iff in E. congruence.
  - rewrite !str_app_nil_l, !str_app_cons. simpl in *.
    apply orb_false_iff in H1 as [Ha1 _].
    apply Ascii.eqb_neq in Ha1.
    destruct (Ascii.compare a1 dot) eqn:E; try reflexivity.
    apply Ascii.compare_eq_iff in E. congruence.
  - rewrite !str_app_cons. simpl in *.
    apply orb_false_iff in H1 as [_ H1].
    apply orb_false_iff in H2 as [_ H2].
    destruct (Ascii.compare a1 a2); try reflexivity.
    now apply IH.
Qed.

Lemma app_dot_inj (b1 : string) : forall (b2 e1 e2 : string),
  has_char dot b1 = false -> has_char dot b2 = false ->
  b1 ++ String dot e1 = b2 ++ String dot e2 -> b1 = b2 /\ e1 = e2.
Proof.
  induction b1 as [|a1 b1 IH]; intros [|a2 b2] e1 e2 H1 H2 E.
  - rewrite !str_app_nil_l in E. injection E as ->. auto.
  - rewrite str_app_nil_l, str_app_cons in E. injection E as Ha _. subst a2.
    cbn [has_char] in H2. rewrite Ascii.eqb_refl in H2. discriminate.
  - rewrite str_app_nil_l, str_app_cons in E. injection E as Ha _. subst a1.
    cbn [has_char] in H1. rewrite Ascii.eqb_refl in H1. discriminate.
  - rewrite !str_app_cons in E. injection E as -> E. simpl in H1, H2.
    apply orb_false_iff in H1 as [_ H1].
    apply orb_false_iff in H2 as [_ H2].
    destruct (IH _ _ _ H1 H2 E) as [-> ->]. auto.
Qed.

Lemma endswith_app (s : string) : forall suffix,
  endswith s suffix = true <-> exists p, s = p ++ suffix.
Proof.
  induction s as [|a s IH]; intros suffix.
  - cbn [endswith]. rewrite orb_false_r, String.eqb_eq. split.
    + intros <-. now exists "".
    + intros ([|b p] & E); [now rewrite str_app_nil_l in E|].
      rewrite str_app_cons in E. discriminate.
  - cbn [endswith]. rewrite orb_true_iff, String.eqb_eq, IH. split.
    + intros [<-|(p & ->)]; [now exists ""|]. now exists (String a p).
    + intros ([|b p] & E).
      * left. now rewrite str_app_nil_l in E.
      * right. rewrite str_app_cons in E. injection E as _ ->. eauto.
Qed.

Lemma rfind_absent (c : ascii) (s : string) :
  has_char c s = false -> rfind c s = -1.
Proof.
  induction s as [|a s IH]; [reflexivity|]. simpl.
  intros H. apply orb_false_iff in H as [Ha Hs].
  rewrite (IH Hs), Ha. reflexivity.
Qed.

Lemma rfind_last (c : ascii) (s t : string) :
  has_char c t = false ->
  rfind c (s ++ String c t) = Z.of_nat (String.length s).
Proof.
  intros Ht. induction s as [|a s IH].
  - rewrite str_app_nil_l. simpl. rewrite (rfind_absent c t Ht).
    now rewrite Ascii.eqb_refl.
  - rewrite str_app_cons. cbn [rfind String.length]. rewrite IH.
    destruct (Z.leb_spec 0 (Z.of_nat (String.length s))); lia.
Qed.

Lemma rfind_app_absent (c : ascii) (s t : string) :
  has_char c t = false -> rfind c (s ++ t) = rfind c s.
Proof.
  intros Ht. induction s as [|a s IH].
  - rewrite str_app_nil_l. now apply rfind_absent.
  - rewrite str_app_cons. cbn [rfind]. now rewrite IH.
Qed.

Lemma str_take_app (s t : string) : take (String.length s) (s ++ t) = s.
Proof.
  induction s as [|a s IH]; [now destruct t|].
  rewrite str_app_cons. simpl. now rewrite IH.
Qed.

Lemma str_drop_app (s t : string) : drop (String.length s) (s ++ t) = t.
Proof.
  induction s as [|a s IH]; [now destruct t|].
  rewrite str_app_cons. simpl. exact IH.
Qed.

Lemma all_dots_has_dot (s : string) :
  all_dots s = true -> s = "" \/ has_char dot s = true.
Proof.
  destruct s as [|a s]; [auto|]. simpl.
  intros H. apply andb_true_iff in H as [-> _]. auto.
Qed.

End StringFacts.

Section PathFacts.

Local Open Scope string_scope.

Lemma join_relative (dir f : string) :
  has_char sep f = false -> join dir f = dir_prefix dir ++ f.
Proof.
  intros Hf. unfold join, dir_prefix, startswith.
  assert (Hstart : String.prefix (String sep "") f = false).
  { destruct f as [|a f]; [reflexivity|].
    cbn [has_char] in Hf. cbn [String.prefix].
    destruct (ascii_dec sep a) as [E|E]; [|reflexivity].
    subst a. rewrite Ascii.eqb_refl in Hf. discriminate. }
  rewrite Hstart.
  destruct (String.eqb dir "" || endswith dir (String sep "")); [reflexivity|].
  now rewrite str_app_assoc.
Qed.

Lemma dir_prefix_shape (dir : string) :
  dir_prefix dir = "" \/ exists p, dir_prefix dir = p ++ String sep "".
Proof.
  unfold dir_prefix.
  destruct (String.eqb_spec dir "") as [->|Hne]; [left; reflexivity|].
  cbn [orb]. destruct (endswith dir (String sep "")) eqn:E.
  - right. apply endswith_app in E. exact E.
  - right. eauto.
Qed.

Lemma basename_relative (dir f : string) :
  has_char sep f = false -> basename (dir_prefix dir ++ f) = f.
Proof.
  intros Hf. unfold basename. rewrite rfind_app_absent by exact Hf.
  destruct (dir_prefix_shape dir) as [->|(p & ->)].
  - reflexivity.
  - rewrite rfind_last by reflexivity.
    replace (Z.to_nat (Z.of_nat (String.length p) + 1))
      with (String.length (p ++ String sep ""))
      by (rewrite str_length_app; simpl; lia).
    apply str_drop_app.
Qed.

Lemma splitext_ext (b ext : string) :
  has_char sep b = false -> has_char sep ext = false ->
  has_char dot ext = false ->
  splitext (b ++ String dot ext)
  = if all_dots b then (b ++ String dot ext, "") else (b, String dot ext).
Proof.
  intros Hb Hsep Hdot. unfold splitext.
  rewrite rfind_absent
    by (rewrite has_char_app, Hb; cbn [has_char]; rewrite Hsep; reflexivity).
  rewrite rfind_last by exact Hdot.
  destruct (Z.ltb_spec (-1) (Z.of_nat (String.length b))); [|lia].
  replace (Z.to_nat (Z.of_nat (String.length b) - (-1 + 1)))
    with (String.length b) by lia.
  rewrite Nat2Z.id. change (Z.to_nat (-1 + 1)) with 0%nat.
  replace (drop 0 (b ++ String dot ext)) with (b ++ String dot ext)
    by now destruct (b ++ String dot ext).
  now rewrite str_take_app, str_drop_app.
Qed.

(** A listed file with extension [ext] whose base name has no dot is its
    base name followed by the extension. *)
Lemma name_of_base (dir f ext : string) :
  has_char sep f = false ->
  endswith f (String dot ext) = true ->
  has_char sep ext = false -> has_char dot ext = false ->
  has_char dot (base_name (join dir f)) = false ->
  f = base_name (join dir f) ++ String dot ext.
Proof.
  intros Hf Hends Hsep Hdot Hbase.
  apply endswith_app in Hends as (b & ->).
  unfold base_name in *.
  rewrite join_relative, basename_relative in * by exact Hf.
  assert (Hb : has_char sep b = false).
  { rewrite has_char_app in Hf. now apply orb_false_iff in Hf as [-> _]. }
  rewrite splitext_ext in * by assumption.
  destruct (all_dots b); [|reflexivity].
  cbn [fst] in Hbase. rewrite has_char_app in Hbase.
  cbn [has_char] in Hbase. rewrite Ascii.eqb_refl, orb_true_r in Hbase.
  discriminate.
Qed.

End PathFacts.

Lemma StronglySorted_fmap_members {A B} (R1 : relation A) (R2 : relation B)
  (f : A -> B) (l : list A) :
  (forall x y, x ∈ l -> y ∈ l -> R1 x y -> R2 (f x) (f y)) ->
  StronglySorted R1 l -> StronglySorted R2 (map f l).
Proof.
  intros Hmono Hs. induction Hs as [|x l Hs IH Hx]; [constructor|].
  cbn [map]. constructor.
  - apply IH. intros y z Hy Hz. apply Hmono; now constructor.
  - apply Forall_forall. intros y' Hy'.
    apply list_elem_of_fmap in Hy' as (y & -> & Hy).
    rewrite Forall_forall in Hx.
    apply Hmono; [constructor|now constructor|auto].
Qed.

Section Pairing.

Local Open Scope string_scope.

Variable w : world.
Variable dir : string.

Let names := listdir w dir.
Let A := audio_files w dir.
Let J := json_files w dir.

(** The directory listing: distinct names, none with a slash. *)
Hypothesis names_distinct : NoDup names.
Hypothesis names_plain : forall f, f ∈ names -> has_char sep f = false.
(** The assertion of line 45 holds. *)
Hypothesis bases_match : names_match A J = true.
(** No base name contains a dot. *)
Hypothesis bases_plain : forall a, a ∈ A -> has_char dot (base_name a) = false.

Lemma listed_path (ext : string) (p : string) :
  has_char sep ext = false -> has_char dot ext = false ->
  p ∈ sorted (map (join dir)
                  (List.filter (fun f => endswith f (String dot ext)) names)) ->
  has_char dot (base_name p) = false ->
  p = dir_prefix dir ++ base_name p ++ String dot ext.
Proof.
  intros Hsep Hdot Hp Hbase.
  unfold sorted in Hp. rewrite merge_sort_Permutation in Hp.
  apply list_elem_of_fmap in Hp as (f & -> & Hf).
  apply list_elem_of_In, filter_In in Hf as [Hf Hends].
  apply list_elem_of_In in Hf.
  pose proof (names_plain f Hf) as Hplain.
  rewrite (name_of_base dir f ext Hplain Hends Hsep Hdot Hbase) at 1.
  apply join_relative.
  rewrite <- (name_of_base dir f ext Hplain Hends Hsep Hdot Hbase).
  exact Hplain.
Qed.

Lemma audio_path (a : string) :
  a ∈ A -> a = dir_prefix dir ++ base_name a ++ ".wav".
Proof.
  intros Ha. apply (listed_path "wav"); auto.
Qed.

Lemma json_base_plain (j : string) :
  j ∈ J -> has_char dot (base_name j) = false.
Proof.
  intros Hj. rewrite names_match_iff in bases_match.
  assert (Hb : base_name j ∈ map base_name A).
  { apply bases_match. apply list_elem_of_fmap. eauto. }
  apply list_elem_of_fmap in Hb as (a & -> & Ha). auto.
Qed.

Lemma json_path (j : string) :
  j ∈ J -> j = dir_prefix dir ++ base_name j ++ ".json".
Proof.
  intros Hj. apply (listed_path "json"); auto using json_base_plain.
Qed.

Lemma json_of_audio_listed (a : string) : a ∈ A -> json_of dir a ∈ J.
Proof.
  intros Ha. pose proof bases_match as Hm. rewrite names_match_iff in Hm.
  assert (Hb : base_name a ∈ map base_name J).
  { apply Hm. apply list_elem_of_fmap. eauto. }
  apply list_elem_of_fmap in Hb as (j & Hbj & Hj).
  unfold json_of. rewrite Hbj, <- json_path by exact Hj. exact Hj.
Qed.

Lemma json_listed_of_audio (j : string) :
  j ∈ J -> exists a, a ∈ A /\ j = json_of dir a.
Proof.
  intros Hj. pose proof bases_match as Hm. rewrite names_match_iff in Hm.
  assert (Hb : base_name j ∈ map base_name A).
  { apply Hm. apply list_elem_of_fmap. eauto. }
  apply list_elem_of_fmap in Hb as (a & Hba & Ha).
  exists a. split; [exact Ha|]. unfold json_of. rewrite <- Hba.
  now apply json_path.
Qed.

Lemma json_of_inj (a1 a2 : string) :
  a1 ∈ A -> a2 ∈ A -> json_of dir a1 = json_of dir a2 -> a1 = a2.
Proof.
  intros H1 H2 E. unfold json_of in E.
  apply (inj (String.app _)) in E.
  apply app_dot_inj in E as [E _]; auto.
  rewrite (audio_path a1 H1), (audio_path a2 H2), E. reflexivity.
Qed.

Lemma json_of_mono (a1 a2 : string) :
  a1 ∈ A -> a2 ∈ A -> String.le a1 a2 ->
  String.le (json_of dir a1) (json_of dir a2).
Proof.
  intros H1 H2 Hle. unfold json_of. rewrite str_le_app.
  rewrite (audio_path a1 H1), (audio_path a2 H2), str_le_app in Hle.
  unfold String.le, String.leb in *.
  pose proof (compare_before_dot (base_name a1) (base_name a2) "json" "wav"
                (bases_plain _ H1) (bases_plain _ H2)) as Hc.
  change (String dot "json") with ".json" in Hc.
  change (String dot "wav") with ".wav" in Hc.
  rewrite Hc. exact Hle.
Qed.

Lemma listed_paths_distinct (ext : string) :
  NoDup (sorted (map (join dir)
                     (List.filter (fun f => endswith f ext) names))).
Proof.
  unfold sorted. rewrite merge_sort_Permutation.
  apply NoDup_fmap_2_strong.
  - intros f1 f2 Hf1 Hf2 E.
    apply list_elem_of_In, filter_In in Hf1 as [Hf1 _].
    apply list_elem_of_In, filter_In in Hf2 as [Hf2 _].
    apply list_elem_of_In in Hf1, Hf2.
    rewrite !join_relative in E by auto.
    now apply (inj (String.app _)) in E.
  - apply NoDup_ListNoDup, List.NoDup_filter, NoDup_ListNoDup.
    exact names_distinct.
Qed.

Lemma trajectories_in_audio_order : map (json_of dir) A = J.
Proof.
  apply (StronglySorted_unique String.le).
  - apply (StronglySorted_fmap_members String.le).
    + apply json_of_mono.
    + apply StronglySorted_merge_sort; apply _.
  - apply StronglySorted_merge_sort; apply _.
  - apply NoDup_Permutation.
    + apply NoDup_fmap_2_strong; [apply json_of_inj|].
      apply listed_paths_distinct.
    + apply listed_paths_distinct.
    + intros j. split.
      * intros Hj. apply list_elem_of_fmap in Hj as (a & -> & Ha).
        now apply json_of_audio_listed.
      * intros Hj. apply json_listed_of_audio in Hj as (a & Ha & ->).
        apply list_elem_of_fmap. eauto.
Qed.

Lemma zip_map_member {X Y} (g : X -> Y) (l : list X) (a : X) (b : Y) :
  (a, b) ∈ zip l (map g l) -> a ∈ l /\ b = g a.
Proof.
  induction l as [|x l IH]; cbn [map zip zip_with]; intros H.
  - inversion H.
  - apply elem_of_cons in H as [[= -> ->]|H].
    + split; [constructor|reflexivity].
    + destruct (IH H) as [Ha Hb]. split; [now constructor|exact Hb].
Qed.

(** C10, as the code has it.  In a directory listing (distinct names
    without slashes) whose audio and trajectory base names are the same
    sets, and in which no base name contains a dot, the two sorted lists
    have the same length and [zip] pairs every audio path with the
    trajectory path of the same directory and base name. *)
Theorem sorted_lists_pair_by_base_name :
  length A = length J
  /\ forall a j, (a, j) ∈ zip A J ->
       j = json_of dir a /\ base_name a = base_name j.
Proof.
  pose proof trajectories_in_audio_order as HJ.
  split; [rewrite <- HJ; now rewrite length_map|].
  intros a j Hin.
  assert (Hj : j ∈ J) by (eapply elem_of_zip_r; exact Hin).
  rewrite <- HJ in Hin. apply zip_map_member in Hin as [Ha ->].
  split; [reflexivity|].
  pose proof (json_path _ Hj) as E. unfold json_of in E at 1.
  apply (inj (String.app _)) in E.
  apply app_dot_inj in E as [E _]; auto using json_base_plain.
Qed.

End Pairing.

Lemma sorted_lists_pair_by_base_name_witness :
  let w := uniform_world
             ["200.wav"; "1000.json"; "1000.wav"; "200.json"]
             10 2 four_points in
  let A := audio_files w "rec" in
  let J := json_files w "rec" in
  (NoDup (listdir w "rec")
   /\ (forall f, f ∈ listdir w "rec" -> has_char sep f = false)
   /\ names_match A J = true
   /\ (forall a, a ∈ A -> has_char dot (base_name a) = false))
  /\ length A = length J
  /\ forall a j, (a, j) ∈ zip A J ->
       j = json_of "rec" a /\ base_name a = base_name j.
Proof.
  intros w A J.
  assert (H1 : NoDup (listdir w "rec")) by (apply (bool_decide_unpack _); vm_compute; exact I).
  assert (H2 : forall f, f ∈ listdir w "rec" -> has_char sep f = false).
  { apply Forall_forall. repeat constructor. }
  assert (H3 : names_match A J = true) by (vm_compute; reflexivity).
  assert (HA : A = ["rec/1000.wav"; "rec/200.wav"]%string)
    by (vm_compute; reflexivity).
  assert (H4 : forall a, a ∈ A -> has_char dot (base_name a) = false).
  { rewrite HA. apply Forall_forall. repeat constructor. }
  split; [repeat split; assumption|].
  exact (sorted_lists_pair_by_base_name w "rec" H1 H2 H3 H4).
Defined.

(** C10 as stated does not hold.  A directory with a recording and a
    retake has the same base names on both sides ([3000] and
    [3000.take2]), but the sorted audio list starts with the retake and
    the sorted trajectory list does not: [zip] pairs files of different
    base names. *)
Lemma dotted_base_names_are_mispaired :
  let w := uniform_world
             ["3000.wav"; "3000.json"; "3000.take2.wav"; "3000.take2.json"]
             10 2 four_points in
  let A := audio_files w "rec" in
  let J := json_files w "rec" in
  Py.set (map base_name A) = Py.set (map base_name J)
  /\ zip A J = [("rec/3000.take2.wav", "rec/3000.json");
                ("rec/3000.wav", "rec/3000.take2.json")]%string
  /\ ~ (forall a j, (a, j) ∈ zip A J -> base_name a = base_name j).
Proof.
  intros w A J.
  assert (Hzip : zip A J = [("rec/3000.take2.wav", "rec/3000.json");
                            ("rec/3000.wav", "rec/3000.take2.json")]%string)
    by (vm_compute; reflexivity).
  split; [apply (bool_decide_unpack _); vm_compute; exact I|].
  split; [exact Hzip|].
  intros H. specialize (H "rec/3000.wav" "rec/3000.take2.json")%string.
  rewrite Hzip in H.
  assert (E : base_name "rec/3000.wav" = base_name "rec/3000.take2.json")
    by (apply H; repeat constructor).
  vm_compute in E. discriminate E.
Qed.

(** ** Integer file names have no dot *)

Lemma digits_tail_plain (s : string) : forall acc us z,
  digits_tail acc us s = Some z -> has_char dot s = false.
Proof.
  induction s as [|a s IH]; intros acc us z H; [reflexivity|].
  cbn [digits_tail has_char] in *.
  destruct (Ascii.eqb_spec a dot) as [->|_]; [discriminate H|].
  destruct (digit_value a); [eauto|].
  destruct (Ascii.eqb a "_" && negb us); [eauto|discriminate].
Qed.

Lemma digits_plain (s : string) (z : Z) :
  digits s = Some z -> has_char dot s = false.
Proof.
  destruct s as [|a s]; [discriminate|]. cbn [digits has_char].
  destruct (Ascii.eqb_spec a dot) as [->|_]; [discriminate|].
  destruct (digit_value a); [|discriminate]. apply digits_tail_plain.
Qed.

Lemma rstrip_plain (s : string) :
  has_char dot (rstrip s) = false -> has_char dot s = false.
Proof.
  induction s as [|a s IH]; [reflexivity|]. cbn [rstrip has_char].
  destruct (rstrip s) as [|b r].
  - rewrite IH by reflexivity.
    destruct (Ascii.eqb_spec a dot) as [->|_]; [discriminate|reflexivity].
  - cbn [has_char]. intros H. apply orb_false_iff in H as [-> H].
    now rewrite IH.
Qed.

Lemma lstrip_plain (s : string) :
  has_char dot (lstrip s) = false -> has_char dot s = false.
Proof.
  induction s as [|a s IH]; [reflexivity|]. cbn [lstrip].
  destruct (is_space a) eqn:E; [|auto].
  intros H. cbn [has_char]. rewrite IH by exact H.
  destruct (Ascii.eqb_spec a dot) as [->|_]; [discriminate E|reflexivity].
Qed.

(** A name that [int] accepts has no dot, so the hypothesis on base names
    of the pairing theorem holds for every file that the first loop can
    turn into an insertion time. *)
Lemma int_of_str_plain (s : string) (z : Z) :
  int_of_str s = Ok z -> has_char dot s = false.
Proof.
  unfold int_of_str. intros H.
  apply lstrip_plain, rstrip_plain.
  destruct (rstrip (lstrip s)) as [|a body] eqn:E; [discriminate H|].
  destruct (Ascii.eqb_spec a "-") as [->|Hm].
  - destruct (digits body) as [z'|] eqn:D; [|discriminate H].
    cbn [has_char]. now rewrite (digits_plain body z' D).
  - destruct (Ascii.eqb_spec a "+") as [->|Hp].
    + destruct (digits body) as [z'|] eqn:D; [|discriminate H].
      cbn [has_char]. now rewrite (digits_plain body z' D).
    + assert (D : exists z', digits (String a body) = Some z').
      { destruct a as [[] [] [] [] [] [] [] []];
          try (exfalso; apply Hm; reflexivity);
          try (exfalso; apply Hp; reflexivity);
          (destruct (digits _) as [z'|]; [eauto|discriminate H]). }
      destruct D as (z' & D). exact (digits_plain _ z' D).
Qed.

Lemma insertion_time_of_plain (audio_file : string) (t : Q) :
  insertion_time_of audio_file = Ok t ->
  has_char dot (base_name audio_file) = false.
Proof.
  unfold insertion_time_of.
  destruct (int_of_str (base_name audio_file)) as [ms|e] eqn:E; [|discriminate].
  intros _. exact (int_of_str_plain _ ms E).
Qed.

(* ================================================================== *)
(** * A narration beyond the end of the video *)
(* ================================================================== *)

(** Whatever the files hold, an iteration of the first loop on a narration
    that lies beyond the end of the video raises: line 72 lets [freeze] cut
    the whole clip at the insertion time. *)
Lemma loop1_body_beyond_the_end (w : world) (st : loop1_state)
  (a j : string) (t : Q) :
  let v := {| start := 0; duration := video_duration w |} in
  insertion_time_of a = Ok t ->
  (0 <= video_duration w)%Q -> (video_duration w < t)%Q ->
  loop1_body w v st a j = ([LoadAudio a], Raise ValueError).
Proof.
  intros v Ht HD Hlt. unfold loop1_body. rewrite Ht.
  cbn [lift bind].
  rewrite (proj2 (Qlt_bool_false_iff t (duration v))) by (cbn [duration v]; lra).
  cbn [ret bind emit app].
  assert (Hfreeze : freeze v t (audio_duration w a) = Raise ValueError).
  { unfold freeze.
    rewrite (proj2 (Qeq_bool_false_iff t 0)) by lra.
    rewrite subclip_ok by (cbn [duration v]; lra). cbn [rbind].
    rewrite (proj2 (Qeq_bool_false_iff t (duration v))) by (cbn [duration v]; lra).
    unfold subclip.
    rewrite (proj2 (Qlt_bool_false_iff t 0)) by lra.
    rewrite (proj2 (Qlt_bool_iff (duration v) t)) by (cbn [duration v]; lra).
    reflexivity. }
  rewrite Hfreeze. reflexivity.
Qed.

(* ================================================================== *)
(** * More on the cursor clip *)
(* ================================================================== *)

Section CursorEdges.

Variable ellipse_covers : Q * Q * Q * Q -> pixel -> bool.

Lemma getitem_member {A} (l : list A) (i : Z) (x : A) :
  getitem l i = Ok x -> x ∈ l.
Proof.
  unfold getitem.
  destruct ((0 <=? _) && (_ <? _)); [|discriminate].
  destruct (nth_error l _) as [y|] eqn:E; [|discriminate].
  intros [= <-]. apply list_elem_of_In. eapply nth_error_In. exact E.
Qed.

Lemma make_frame_at_zero (self : CursorClip) (p0 : point) :
  head (trajectory self) = Some p0 ->
  ~ (cursor_duration self == 0)%Q ->
  make_frame ellipse_covers self 0
  = Ok (draw_ellipse ellipse_covers (frame self) (marker_box p0) red,
        set_frame self
          (draw_ellipse ellipse_covers (frame self) (marker_box p0) red)).
Proof.
  intros Hhead Hcd. unfold make_frame, sample_index.
  rewrite truediv_ok by exact Hcd. cbn [rbind].
  change (int_of_float (0 / cursor_duration self)) with 0.
  destruct (trajectory self) as [|p rest]; [discriminate|].
  injection Hhead as ->. reflexivity.
Qed.

(** What [__init__] does, case by case. *)
Lemma CursorClip_init_cases (img : image) (traj : list point) (D : Q) :
  match CursorClip_init ellipse_covers img traj D with
  | Ok self0 =>
      traj <> [] /\ ~ (D == 0)%Q
      /\ trajectory self0 = traj /\ cc_duration self0 = D
      /\ exists p0, head traj = Some p0
           /\ frame self0
              = draw_ellipse ellipse_covers img (marker_box p0) red
  | Raise e => e = ZeroDivisionError /\ (traj = [] \/ (D == 0)%Q)
  end.
Proof.
  unfold CursorClip_init.
  destruct traj as [|p0 rest].
  - change (truediv D (inject_Z (Z.of_nat (length (@nil point)))))
      with (@Raise Q ZeroDivisionError).
    cbn [rbind]. auto.
  - assert (HL : ~ (inject_Z (Z.of_nat (length (p0 :: rest))) == 0)%Q)
      by (unfold Qeq; simpl; lia).
    rewrite truediv_ok by exact HL. cbn [rbind].
    set (cd := fl (D / inject_Z (Z.of_nat (length (p0 :: rest))))).
    destruct (Qeq_dec D 0) as [HD|HD].
    + assert (Hcd : (cd == 0)%Q).
      { unfold cd. rewrite fl_zero; [reflexivity|].
        rewrite HD. field. exact HL. }
      unfold make_frame, sample_index, truediv. cbn [cursor_duration].
      rewrite (proj2 (Qeq_bool_iff cd 0) Hcd). cbn. auto.
    + assert (Hcd : ~ (cd == 0)%Q).
      { unfold cd. apply fl_nonzero. intros E. apply HD.
        assert (E' : (D == D / inject_Z (Z.of_nat (length (p0 :: rest)))
                          * inject_Z (Z.of_nat (length (p0 :: rest))))%Q)
          by (field; exact HL).
        rewrite E', E. ring. }
      rewrite (make_frame_at_zero _ p0) by (try reflexivity; exact Hcd).
      cbn [rbind]. repeat split; try congruence; try assumption.
      exists p0. split; reflexivity.
Qed.

(** X1: [__init__] returns an object exactly when the trajectory is not
    empty and the duration is not zero; otherwise it raises, and the error
    is the division by zero.  The object it returns holds the trajectory
    and the duration it was given, and its buffer is the base frame with
    the marker of the first point already on it. *)
Theorem constructor_raises_on_empty_or_zero
  (img : image) (traj : list point) (D : Q) :
  ((exists self0, CursorClip_init ellipse_covers img traj D = Ok self0)
   <-> traj <> [] /\ ~ (D == 0)%Q)
  /\ (forall e, CursorClip_init ellipse_covers img traj D = Raise e ->
        e = ZeroDivisionError)
  /\ (forall self0, CursorClip_init ellipse_covers img traj D = Ok self0 ->
        trajectory self0 = traj /\ cc_duration self0 = D
        /\ forall px, ellipse_covers (marker_box (hd (0, 0)%Q traj)) px = true ->
             frame self0 px = red).
Proof.
  pose proof (CursorClip_init_cases img traj D) as H.
  destruct (CursorClip_init ellipse_covers img traj D) as [self0|e].
  - destruct H as (Hne & HD & Htraj & Hdur & p0 & Hhead & Hframe).
    split; [split; [auto|eauto]|].
    split; [discriminate|].
    intros self1 [= <-]. split; [exact Htraj|]. split; [exact Hdur|].
    intros px Hpx. destruct traj as [|p rest]; [discriminate|].
    injection Hhead as ->. rewrite Hframe. unfold draw_ellipse.
    cbn [hd] in Hpx. now rewrite Hpx.
  - destruct H as [-> Hwhy].
    split; [split|].
    + intros (self0 & Hok). discriminate.
    + intros [Hne HD]. destruct Hwhy; contradiction.
    + split; [now intros e [= <-]|]. discriminate.
Qed.

(** At the end of the audio the rounded quotient can still be below the
    length of the trajectory: with 93 points on 2 seconds, [2 / (2 / 93)]
    is computed as [92.99999999999999], and the call at [t = 2] draws the
    last point. *)
Lemma last_point_can_be_drawn_at_the_end :
  let traj := repeat (10, 10)%Q 93 in
  Qfloor (2 / (2 / 93)) = 93
  /\ exists self0,
       CursorClip_init ellipse_covers blank traj 2 = Ok self0
       /\ sample_index self0 2 = Ok 92.
Proof.
  intros traj. split; [reflexivity|].
  destruct (CursorClip_init_shape ellipse_covers blank traj 2)
    as (self0 & p0 & Hinit & _ & Hcd & _); [discriminate|reflexivity|].
  exists self0. split; [exact Hinit|].
  unfold sample_index. rewrite Hcd. vm_compute. reflexivity.
Qed.

(** X2: once the time has reached [L] times the stored sample duration,
    [make_frame] draws nothing: it returns the buffer as it is and leaves
    the object as it is.  That time is the audio duration up to one
    rounding, between [D * (1 - 2^-53)] and [D * (1 + 2^-53)]. *)
Theorem frames_after_the_audio_are_frozen
  (img : image) (traj : list point) (D : Q) (self0 : CursorClip) :
  traj <> [] -> (0 < D)%Q ->
  Z.of_nat (length traj) <= 2 ^ 53 ->
  CursorClip_init ellipse_covers img traj D = Ok self0 ->
  let stop := (inject_Z (Z.of_nat (length traj)) * cursor_duration self0)%Q in
  (D * (1 - unit_roundoff) <= stop <= D * (1 + unit_roundoff))%Q
  /\ forall t buffer, (stop <= t)%Q ->
       make_frame ellipse_covers (set_frame self0 buffer) t
       = Ok (buffer, set_frame self0 buffer).
Proof.
  intros Hne HD Hlen Hinit stop.
  destruct (CursorClip_init_shape ellipse_covers img traj D Hne HD)
    as (self0' & p0 & Hinit' & Htraj & Hcd0 & _).
  assert (self0' = self0) by congruence. subst self0'.
  pose proof (cursor_duration_pos traj D Hne HD) as Hcd.
  pose proof (length_as_float_pos traj Hne) as HL.
  unfold stop. rewrite Hcd0.
  set (l := inject_Z (Z.of_nat (length traj))) in *.
  set (cd := fl (D / l)) in *.
  split.
  - assert (Hc0 : (0 <= D / l)%Q)
      by (apply Qle_shift_div_l; [exact HL|lra]).
    pose proof (fl_error (D / l) Hc0) as [Hlo Hhi]. fold cd in Hlo, Hhi.
    assert (E : (l * (D / l) == D)%Q) by (field; lra).
    set (c0 := (D / l)%Q) in *.
    assert (G : (l * (c0 * (1 - unit_roundoff)) <= l * cd
                 <= l * (c0 * (1 + unit_roundoff)))%Q).
    { split; rewrite !(Qmult_comm l);
        (apply Qmult_le_compat_r; [assumption|lra]). }
    assert (E1 : (l * (c0 * (1 - unit_roundoff))
                  == D * (1 - unit_roundoff))%Q) by (rewrite <- E; ring).
    assert (E2 : (l * (c0 * (1 + unit_roundoff))
                  == D * (1 + unit_roundoff))%Q) by (rewrite <- E; ring).
    rewrite E1, E2 in G. exact G.
  - intros t buffer Ht.
    set (self := set_frame self0 buffer).
    assert (Hself : cursor_duration self = cd) by exact Hcd0.
    assert (Ht0 : (0 <= t)%Q).
    { apply Qle_trans with (l * cd)%Q; [|exact Ht].
      apply Qmult_le_0_compat; lra. }
    destruct (sample_index_floor self t) as [Hidx _];
      [now rewrite Hself|exact Ht0|].
    unfold make_frame. rewrite Hidx. cbn [rbind].
    assert (Hge : Z.of_nat (length (trajectory self))
                  <= Qfloor (fl (t / cursor_duration self))).
    { change (trajectory self) with (trajectory self0). rewrite Htraj, Hself.
      rewrite <- (Qfloor_Z (Z.of_nat (length traj))) at 1.
      apply Qfloor_resp_le. apply fl_ge_int; [lia|].
      fold l. apply Qle_shift_div_l; [exact Hcd|exact Ht]. }
    destruct (Z.ltb_spec (Qfloor (fl (t / cursor_duration self)))
                (Z.of_nat (length (trajectory self)))); [lia|].
    reflexivity.
Qed.

(** One call changes no pixel that lies outside the markers of all the
    points of the trajectory. *)
Lemma make_frame_outside (self self' : CursorClip) (t : Q) (img : image)
  (px : pixel) :
  (forall p, p ∈ trajectory self -> ellipse_covers (marker_box p) px = false) ->
  make_frame ellipse_covers self t = Ok (img, self') ->
  img px = frame self px.
Proof.
  intros Hout. unfold make_frame.
  destruct (sample_index self t) as [i|e]; [|discriminate]. cbn [rbind].
  destruct (i <? _).
  - destruct (getitem (trajectory self) i) as [p|e] eqn:Hget; [|discriminate].
    cbn [rbind]. intros [= <- _]. unfold draw_ellipse.
    now rewrite (Hout p (getitem_member _ _ _ Hget)).
  - now intros [= <- _].
Qed.

Lemma render_outside (px : pixel) (ts : list Q) : forall self frames,
  (forall p, p ∈ trajectory self -> ellipse_covers (marker_box p) px = false) ->
  render ellipse_covers self ts = Ok frames ->
  Forall (fun img : image => img px = frame self px) frames.
Proof.
  induction ts as [|t ts IH]; intros self frames Hout H.
  - injection H as <-. constructor.
  - apply render_cons_inv in H as (img & self' & rest & Hmf & Hr & ->).
    destruct (make_frame_inv _ _ _ _ _ Hmf) as (Hfr & Htr & _ & _).
    pose proof (make_frame_outside _ _ _ _ px Hout Hmf) as Hpx.
    constructor; [exact Hpx|].
    rewrite <- Hpx, <- Hfr. apply IH; [|exact Hr].
    now rewrite Htr.
Qed.

(** X3: the overlay touches the markers only.  A pixel that no marker of
    the trajectory covers has, in every frame of the clip, the colour it
    has in the base frame, whatever times the frames are requested at. *)
Theorem pixels_outside_the_markers_keep_their_colour
  (img0 : image) (traj : list point) (D : Q) (ts : list Q)
  (self0 : CursorClip) (frames : list image) (px : pixel) :
  CursorClip_init ellipse_covers img0 traj D = Ok self0 ->
  render ellipse_covers self0 ts = Ok frames ->
  (forall p, p ∈ traj -> ellipse_covers (marker_box p) px = false) ->
  forall img, img ∈ frames -> img px = img0 px.
Proof.
  intros Hinit Hr Hout img Himg.
  pose proof (CursorClip_init_cases img0 traj D) as Hshape.
  rewrite Hinit in Hshape.
  destruct Hshape as (_ & _ & Htraj & _ & p0 & Hhead & Hframe).
  assert (Hp0 : p0 ∈ traj).
  { destruct traj as [|p rest]; [discriminate|]. injection Hhead as ->. constructor. }
  assert (Hbase : frame self0 px = img0 px).
  { rewrite Hframe. unfold draw_ellipse. now rewrite (Hout p0 Hp0). }
  pose proof (render_outside px ts self0 frames) as Hall.
  rewrite Htraj in Hall. specialize (Hall Hout Hr).
  rewrite Forall_forall in Hall. rewrite (Hall img Himg). exact Hbase.
Qed.

(** X4: asking twice for the same time changes nothing the second time:
    the second call returns, pixel for pixel, the image of the first. *)
Theorem same_time_twice_gives_the_same_image
  (self self' : CursorClip) (t : Q) (img : image) :
  make_frame ellipse_covers self t = Ok (img, self') ->
  exists img2 self2,
    make_frame ellipse_covers self' t = Ok (img2, self2)
    /\ forall px, img2 px = img px /\ frame self2 px = img px.
Proof.
  unfold make_frame. intros H.
  destruct (sample_index self t) as [i|e] eqn:Hi; [|discriminate].
  cbn [rbind] in H.
  destruct (i <? Z.of_nat (length (trajectory self))) eqn:Hlt.
  - destruct (getitem (trajectory self) i) as [p|e] eqn:Hget; [|discriminate].
    cbn [rbind] in H. injection H as <- <-.
    rewrite (sample_index_same_duration self) by reflexivity.
    rewrite Hi. cbn [rbind set_frame trajectory]. rewrite Hlt, Hget.
    cbn [rbind]. eexists _, _. split; [reflexivity|].
    intros px. cbn [set_frame frame]. unfold draw_ellipse.
    destruct (ellipse_covers (marker_box p) px); auto.
  - injection H as <- <-. rewrite Hi. cbn [rbind]. rewrite Hlt.
    eexists _, _. split; [reflexivity|]. auto.
Qed.

End CursorEdges.

Lemma frames_after_the_audio_are_frozen_witness :
  exists self0,
    CursorClip_init disc_covers blank four_points 2 = Ok self0
    /\ four_points <> [] /\ (0 < 2)%Q
    /\ Z.of_nat (length four_points) <= 2 ^ 53
    /\ (inject_Z 4 * cursor_duration self0 <= 5 # 2)%Q
    /\ make_frame disc_covers (set_frame self0 blank) (5 # 2)
       = Ok (blank, set_frame self0 blank).
Proof.
  eexists. split; [reflexivity|].
  assert (Hne : four_points <> []) by discriminate.
  assert (HD : (0 < 2)%Q) by reflexivity.
  assert (Hlen : Z.of_nat (length four_points) <= 2 ^ 53) by discriminate.
  split; [exact Hne|]. split; [exact HD|]. split; [exact Hlen|].
  split; [vm_compute; discriminate|].
  apply (frames_after_the_audio_are_frozen disc_covers blank four_points 2
           _ Hne HD Hlen eq_refl).
  vm_compute. discriminate.
Defined.

Lemma pixels_outside_the_markers_witness :
  exists self0 frames,
    CursorClip_init disc_covers blank four_points 2 = Ok self0
    /\ render disc_covers self0 [0; 1 # 2; 1; 3 # 2; 2]%Q = Ok frames
    /\ (forall p, p ∈ four_points -> disc_covers (marker_box p) (40, 40) = false)
    /\ forall img, img ∈ frames -> img (40, 40) = blank (40, 40).
Proof.
  destruct (CursorClip_init_shape disc_covers blank four_points 2)
    as (self0 & p0 & Hinit & _ & Hcd & _); [discriminate|reflexivity|].
  destruct (render_total disc_covers [0; 1 # 2; 1; 3 # 2; 2]%Q self0)
    as (frames & Hr).
  { rewrite Hcd. apply cursor_duration_pos; [discriminate|reflexivity]. }
  { repeat constructor; discriminate. }
  exists self0, frames. split; [exact Hinit|]. split; [exact Hr|].
  assert (Hout : forall p, p ∈ four_points ->
                   disc_covers (marker_box p) (40, 40) = false).
  { apply Forall_forall. repeat constructor. }
  split; [exact Hout|].
  exact (pixels_outside_the_markers_keep_their_colour disc_covers blank
           four_points 2 [0; 1 # 2; 1; 3 # 2; 2]%Q self0 frames (40, 40)
           Hinit Hr Hout).
Defined.

Lemma same_time_twice_witness :
  let self := {| trajectory := four_points; cursor_duration := 1 # 2;
                 frame := blank; cc_duration := 2 |} in
  let img := draw_ellipse disc_covers blank (marker_box (20, 10)%Q) red in
  make_frame disc_covers self (3 # 4) = Ok (img, set_frame self img)
  /\ exists img2 self2,
       make_frame disc_covers (set_frame self img) (3 # 4) = Ok (img2, self2)
       /\ forall px, img2 px = img px /\ frame self2 px = img px.
Proof.
  intros self img.
  assert (H : make_frame disc_covers self (3 # 4) = Ok (img, set_frame self img)).
  { unfold make_frame, sample_index, truediv.
    replace (Qeq_bool (cursor_duration self) 0) with false by reflexivity.
    cbn [rbind].
    replace (int_of_float (fl ((3 # 4) / cursor_duration self))) with 1
      by (vm_compute; reflexivity).
    reflexivity. }
  split; [exact H|].
  exact (same_time_twice_gives_the_same_image disc_covers self
           (set_frame self img) (3 # 4) img H).
Defined.

(* ================================================================== *)
(** * More on the relative cuts *)
(* ================================================================== *)

Lemma diffs_prefix_sum (rest : list Q) : forall (t0 : Q) (k : nat),
  (k <= length rest)%nat ->
  (Qsum (firstn k (diffs t0 rest)) == nth k (t0 :: rest) 0 - t0)%Q.
Proof.
  induction rest as [|t1 rest IH]; intros t0 k Hk.
  - cbn [length] in Hk. replace k with 0%nat by lia.
    cbn [firstn diffs Qsum nth]. lra.
  - destruct k as [|k]; [cbn [firstn diffs Qsum nth]; lra|].
    cbn [diffs firstn Qsum]. rewrite IH by (cbn [length] in Hk; lia).
    change (nth (S k) (t0 :: t1 :: rest) 0%Q) with (nth k (t1 :: rest) 0%Q).
    ring.
Qed.

(** X5: the relative cuts add up to distances from the first insertion
    time: the cuts up to and including the one of narration [k] sum to
    [times[k] - times[0]].  This is how far into the footage narration [k]
    is placed. *)
Theorem relative_cuts_add_up (times : list Q) (k : nat) :
  (k < length times)%nat ->
  (Qsum (firstn (S k) (relative_insertion_times times))
   == nth k times 0 - nth 0 times 0)%Q.
Proof.
  intros Hk. destruct times as [|t0 rest]; [cbn [length] in Hk; lia|].
  rewrite relative_insertion_times_cons. cbn [firstn Qsum].
  rewrite diffs_prefix_sum by (cbn [length] in Hk; lia).
  cbn [nth]. ring.
Qed.

Lemma relative_cuts_add_up_witness :
  (2 < length [1; 2; 4]%Q)%nat
  /\ (Qsum (firstn 3 (relative_insertion_times [1; 2; 4]%Q)) == 4 - 1)%Q.
Proof.
  assert (H : (2 < length [1; 2; 4]%Q)%nat) by (simpl; lia).
  split; [exact H|].
  exact (relative_cuts_add_up [1; 2; 4]%Q 2 H).
Defined.

(* ================================================================== *)
(** * Every run of the program *)
(* ================================================================== *)

Lemma subclip_raises (c : clip) (ts : Q) (te : option Q) (e : exn) :
  subclip c ts te = Raise e -> e = ValueError.
Proof.
  unfold subclip. destruct (Qlt_bool (duration c) _); [|discriminate].
  now intros [= <-].
Qed.

Lemma freeze_raises (c : clip) (t len : Q) (e : exn) :
  freeze c t len = Raise e -> e = ValueError.
Proof.
  unfold freeze.
  destruct (Qeq_bool t 0).
  - cbn [rbind]. destruct (Qeq_bool t (duration c)); [discriminate|].
    destruct (subclip c t None) eqn:E; [discriminate|].
    cbn [rbind]. intros [= <-]. eauto using subclip_raises.
  - destruct (subclip c 0 (Some t)) eqn:E0.
    + cbn [rbind]. destruct (Qeq_bool t (duration c)); [discriminate|].
      destruct (subclip c t None) eqn:E; [discriminate|].
      cbn [rbind]. intros [= <-]. eauto using subclip_raises.
    + cbn [rbind]. intros [= <-]. eauto using subclip_raises.
Qed.

Lemma insertion_time_of_raises (a : string) (e : exn) :
  insertion_time_of a = Raise e -> e = ValueError.
Proof.
  unfold insertion_time_of, int_of_str.
  destruct (match rstrip (lstrip (base_name a)) with
            | String "-" r => option_map Z.opp (digits r)
            | String "+" r => digits r
            | _ => digits (rstrip (lstrip (base_name a)))
            end); [discriminate|].
  now intros [= <-].
Qed.

Lemma split_at_raises (v : clip) (t : Q) (e : exn) :
  split_at v t = Raise e -> e = ValueError.
Proof.
  unfold split_at. destruct (Qlt_bool t (duration v)); [|discriminate].
  destruct (subclip v 0 (Some t)) eqn:E0; cbn [rbind].
  - destruct (subclip v t (Some (duration v))) eqn:E1; cbn [rbind]; [discriminate|].
    intros [= <-]. eauto using subclip_raises.
  - intros [= <-]. eauto using subclip_raises.
Qed.

Lemma hold_raises (c1 : clip) (t len : Q) (e : exn) :
  hold c1 t len = Raise e -> e = ValueError.
Proof.
  unfold hold. destruct (freeze c1 t len) eqn:E0; cbn [rbind].
  - apply subclip_raises.
  - intros [= <-]. eauto using freeze_raises.
Qed.

(** One iteration of the first loop, step by step: what it logs and how it
    ends. *)
Lemma loop1_body_cases (w : world) (v : clip) (st : loop1_state)
  (a j : string) :
  loop1_body w v st a j
  = match insertion_time_of a with
    | Raise e => ([], Raise e)
    | Ok t =>
        match split_at v t with
        | Raise e => ([], Raise e)
        | Ok (c1, c2) =>
            match hold c1 t (audio_duration w a) with
            | Raise e => ([LoadAudio a], Raise e)
            | Ok _ =>
                match CursorClip_init (ellipse w) (video_frame w t)
                        (json_load w j) (audio_duration w a) with
                | Raise e =>
                    ([LoadAudio a; ReadTrajectory j; GetFrame t], Raise e)
                | Ok cc =>
                    ([LoadAudio a; ReadTrajectory j; GetFrame t],
                     Ok {| insertion_times := insertion_times st ++ [t];
                           insertion_clips :=
                             insertion_clips st
                             ++ [{| cursor := cc; audio_track := a |}];
                           clip1 := Bound c1;
                           clip2 := c2 |})
                end
            end
        end
    end.
Proof.
  unfold loop1_body, split_at, hold.
  destruct (insertion_time_of a) as [t|e]; [|reflexivity].
  cbn [lift bind].
  destruct (Qlt_bool t (duration v)).
  - destruct (subclip v 0 (Some t)) as [c1|e]; [|reflexivity].
    cbn [lift bind rbind].
    destruct (subclip v t (Some (duration v))) as [c2|e]; [|reflexivity].
    cbn [lift bind rbind ret emit app].
    destruct (freeze c1 t (audio_duration w a)) as [held|e]; [|reflexivity].
    cbn [rbind].
    destruct (subclip held _ _) as [ff|e]; [|reflexivity].
    cbn [app].
    destruct (CursorClip_init _ _ _ _) as [cc|e]; reflexivity.
  - cbn [lift bind rbind ret emit app].
    destruct (freeze v t (audio_duration w a)) as [held|e]; [|reflexivity].
    cbn [rbind].
    destruct (subclip held _ _) as [ff|e]; [|reflexivity].
    cbn [app].
    destruct (CursorClip_init _ _ _ _) as [cc|e]; reflexivity.
Qed.

Lemma loop1_body_ok_inv (w : world) (v : clip) (st st' : loop1_state)
  (a j : string) :
  outcome (loop1_body w v st a j) = Ok st' ->
  unit_runs w v (a, j)
  /\ trace (loop1_body w v st a j) = unit_events (a, j)
  /\ exists t cc,
       insertion_time_of a = Ok t
       /\ cc_duration (cursor cc) = audio_duration w a
       /\ audio_track cc = a
       /\ insertion_times st' = insertion_times st ++ [t]
       /\ insertion_clips st' = insertion_clips st ++ [cc]
       /\ clip2 st' <> Unbound.
Proof.
  rewrite loop1_body_cases. unfold unit_runs, unit_events. cbn [fst snd].
  destruct (insertion_time_of a) as [t|e]; [|discriminate].
  destruct (split_at v t) as [[c1 c2]|e] eqn:Hsplit; [|discriminate].
  destruct (hold c1 t (audio_duration w a)) as [held|e] eqn:Hhold;
    [|discriminate].
  pose proof (CursorClip_init_cases (ellipse w) (video_frame w t)
                (json_load w j) (audio_duration w a)) as Hcc.
  destruct (CursorClip_init _ _ _ _) as [cc|e] eqn:Hinit; [|discriminate].
  cbn [outcome trace fst snd]. intros [= <-].
  split; [exists t, c1, c2, held, cc; auto|]. split; [reflexivity|].
  exists t, {| cursor := cc; audio_track := a |}.
  cbn [cursor audio_track insertion_times insertion_clips clip2].
  destruct Hcc as (_ & _ & _ & Hdur & _).
  repeat split; try reflexivity; try assumption.
  unfold split_at in Hsplit.
  destruct (Qlt_bool t (duration v)).
  - destruct (subclip v 0 (Some t)); [|discriminate].
    destruct (subclip v t (Some (duration v))); [|discriminate].
    cbn in Hsplit. injection Hsplit as _ <-. discriminate.
  - injection Hsplit as _ <-. discriminate.
Qed.

Lemma loop1_body_raise_inv (w : world) (v : clip) (st : loop1_state)
  (a j : string) (e : exn) :
  outcome (loop1_body w v st a j) = Raise e ->
  e = ValueError \/ e = ZeroDivisionError.
Proof.
  rewrite loop1_body_cases.
  destruct (insertion_time_of a) as [t|e0] eqn:E0.
  2:{ cbn. intros [= <-]. left. eauto using insertion_time_of_raises. }
  destruct (split_at v t) as [[c1 c2]|e1] eqn:E1.
  2:{ cbn. intros [= <-]. left. eauto using split_at_raises. }
  destruct (hold c1 t (audio_duration w a)) as [held|e2] eqn:E2.
  2:{ cbn. intros [= <-]. left. eauto using hold_raises. }
  pose proof (CursorClip_init_cases (ellipse w) (video_frame w t)
                (json_load w j) (audio_duration w a)) as Hcc.
  destruct (CursorClip_init _ _ _ _) as [cc|e3]; [discriminate|].
  cbn. intros [= <-]. right. apply Hcc.
Qed.

Lemma loop1_body_never_writes (w : world) (v : clip) (st : loop1_state)
  (a j : string) :
  Forall (fun ev => is_write ev = false) (trace (loop1_body w v st a j)).
Proof.
  rewrite loop1_body_cases.
  destruct (insertion_time_of a) as [t|e0]; [|constructor].
  destruct (split_at v t) as [[c1 c2]|e1]; [|constructor].
  destruct (hold c1 t (audio_duration w a)) as [held|e2];
    [|repeat constructor].
  destruct (CursorClip_init _ _ _ _) as [cc|e3]; repeat constructor.
Qed.

Lemma loop1_ok_inv (w : world) (v : clip) (pairs : list (string * string)) :
  forall st st',
  outcome (loop1 w v st pairs) = Ok st' ->
  Forall (unit_runs w v) pairs
  /\ trace (loop1 w v st pairs) = flat_map unit_events pairs
  /\ (pairs = [] -> st' = st)
  /\ (pairs <> [] -> clip2 st' <> Unbound)
  /\ exists times cs,
       Forall2 (fun u t => insertion_time_of (fst u) = Ok t) pairs times
       /\ insertion_times st' = insertion_times st ++ times
       /\ insertion_clips st' = insertion_clips st ++ cs
       /\ map audio_track cs = map fst pairs
       /\ map (fun ic => cc_duration (cursor ic)) cs
          = map (fun u => audio_duration w (fst u)) pairs.
Proof.
  induction pairs as [|[a j] rest IH]; intros st st' H.
  - injection H as <-. cbn [loop1 ret trace fst flat_map].
    repeat split; try constructor; try congruence.
    exists [], []. rewrite !app_nil_r. repeat split; constructor.
  - cbn [loop1] in H |- *. rewrite outcome_bind in H.
    destruct (outcome (loop1_body w v st a j)) as [st1|e] eqn:Hbody;
      [|discriminate].
    cbn [rbind] in H.
    rewrite (trace_bind_ok _ _ st1 Hbody).
    destruct (loop1_body_ok_inv w v st st1 a j Hbody)
      as (Hruns & Htrace & t & cc & Ht & Hdur & Htrack & Hti & Hcl & Hc2).
    destruct (IH st1 st' H)
      as (Hall & Htr & Hnil & Hcons & times & cs & Htimes & Hti' & Hcl' & Htracks & Hdurs).
    split; [constructor; assumption|].
    split; [cbn [flat_map]; now rewrite Htrace, Htr|].
    split; [discriminate|].
    split.
    { intros _. destruct rest as [|u rest'].
      - rewrite (Hnil eq_refl). exact Hc2.
      - apply Hcons. discriminate. }
    exists (t :: times), (cc :: cs).
    split; [constructor; assumption|].
    rewrite Hti', Hti, Hcl', Hcl, <- !app_assoc. cbn [app map fst].
    rewrite Htracks, Hdurs, Hdur, Htrack. repeat split.
Qed.

Lemma loop1_raise_inv (w : world) (v : clip) (pairs : list (string * string)) :
  forall st e,
  outcome (loop1 w v st pairs) = Raise e ->
  e = ValueError \/ e = ZeroDivisionError.
Proof.
  induction pairs as [|[a j] rest IH]; intros st e H; [discriminate|].
  cbn [loop1] in H. rewrite outcome_bind in H.
  destruct (outcome (loop1_body w v st a j)) as [st1|e1] eqn:Hbody.
  - cbn [rbind] in H. eauto.
  - cbn [rbind] in H. injection H as <-.
    eauto using loop1_body_raise_inv.
Qed.

Lemma loop1_never_writes (w : world) (v : clip)
  (pairs : list (string * string)) :
  forall st, Forall (fun ev => is_write ev = false) (trace (loop1 w v st pairs)).
Proof.
  induction pairs as [|[a j] rest IH]; intros st; [constructor|].
  cbn [loop1].
  destruct (outcome (loop1_body w v st a j)) as [st1|e1] eqn:Hbody.
  - rewrite (trace_bind_ok _ _ st1 Hbody). apply Forall_app.
    split; [apply loop1_body_never_writes|apply IH].
  - rewrite (trace_bind_raise _ _ e1 Hbody). apply loop1_body_never_writes.
Qed.

Lemma loop2_raises (plan : list (Q * insertion_clip)) : forall st e,
  loop2 st plan = Raise e -> e = ValueError.
Proof.
  induction plan as [|[r ic] plan IH]; intros st e H; [discriminate|].
  cbn [loop2] in H.
  destruct (subclip (video st) 0 (Some r)) as [c1|e1] eqn:H1.
  - cbn [rbind] in H.
    destruct (subclip (video st) r (Some (duration (video st)))) as [c2|e2] eqn:H2.
    + cbn [rbind] in H. eauto.
    + cbn [rbind] in H. injection H as <-. eauto using subclip_raises.
  - cbn [rbind] in H. injection H as <-. eauto using subclip_raises.
Qed.

Lemma footage_app (l1 l2 : list segment) :
  footage (l1 ++ l2) = footage l1 ++ footage l2.
Proof.
  induction l1 as [|[c|ic] l1 IH]; cbn [app footage]; [reflexivity| |exact IH].
  now rewrite IH.
Qed.

Lemma narrations_app (l1 l2 : list segment) :
  narrations (l1 ++ l2) = narrations l1 ++ narrations l2.
Proof.
  induction l1 as [|[c|ic] l1 IH]; cbn [app narrations]; [reflexivity|exact IH|].
  now rewrite IH.
Qed.

Lemma chained_proper (pieces : list clip) : forall from from' to to',
  (from == from')%Q -> (to == to')%Q ->
  chained from pieces to -> chained from' pieces to'.
Proof.
  induction pieces as [|c rest IH]; intros from from' to to' Hf Ht; cbn [chained].
  - intros H. now rewrite <- Hf, <- Ht.
  - intros [Hs Hrest]. split; [now rewrite <- Hf|].
    eapply IH; [reflexivity|exact Ht|exact Hrest].
Qed.

(** A cut leaves two clips that follow each other and together span the
    clip that was cut, also when the cut time is negative. *)
Lemma cut_is_chained (c c1 c2 : clip) (t : Q) :
  subclip c 0 (Some t) = Ok c1 ->
  subclip c t (Some (duration c)) = Ok c2 ->
  (start c1 == start c)%Q
  /\ (start c2 == start c1 + duration c1)%Q
  /\ (start c2 + duration c2 == start c + duration c)%Q.
Proof.
  unfold subclip.
  replace (Qlt_bool 0 0) with false by reflexivity.
  destruct (Qlt_bool (duration c) 0) eqn:Hd; [discriminate|].
  intros H1 H2. injection H1 as <-.
  destruct (Qlt_bool t 0).
  - destruct (Qlt_bool (duration c) (duration c + t)); [discriminate|].
    injection H2 as <-. cbn [start duration]. repeat split; ring.
  - destruct (Qlt_bool (duration c) t); [discriminate|].
    injection H2 as <-. cbn [start duration]. repeat split; ring.
Qed.

(** What a completed run of the second loop has appended. *)
Lemma loop2_shape (plan : list (Q * insertion_clip)) : forall st st',
  loop2 st plan = Ok st' ->
  exists added,
    final_clips st' = final_clips st ++ added
    /\ narrations added = map (fun p => audio_track (snd p)) plan
    /\ (forall c, alternates (added ++ [Base c]) = true)
    /\ chained (start (video st)) (footage added ++ [video st'])
         (start (video st) + duration (video st))
    /\ (plan = [] -> st' = st).
Proof.
  induction plan as [|[r ic] plan IH]; intros st st' H.
  - injection H as <-. exists []. rewrite app_nil_r.
    cbn [narrations map app footage alternates chained].
    repeat split; reflexivity.
  - cbn [loop2] in H.
    destruct (subclip (video st) 0 (Some r)) as [c1|e] eqn:H1; [|discriminate].
    destruct (subclip (video st) r (Some (duration (video st)))) as [c2|e] eqn:H2;
      [|discriminate].
    cbn [rbind] in H.
    destruct (cut_is_chained _ _ _ _ H1 H2) as (Hs1 & Hs2 & Hend).
    destruct (IH _ _ H) as (added & Hfin & Hnar & Halt & Hcont & _).
    cbn [video final_clips] in Hfin, Hcont.
    exists (Base c1 :: Insertion ic :: added).
    split; [rewrite Hfin, <- app_assoc; reflexivity|].
    split; [cbn [narrations map snd]; now rewrite Hnar|].
    split; [intros c; cbn [app alternates]; apply Halt|].
    split; [|discriminate].
    cbn [footage app chained]. split; [exact Hs1|].
    eapply chained_proper; [exact Hs2|exact Hend|exact Hcont].
Qed.

(** How a run that returns went. *)
Lemma stitch_ok_inv (w : world) (vf dir out : string) (clips : list segment) :
  outcome (stitch_video_audio w vf dir out) = Ok clips ->
  names_match (audio_files w dir) (json_files w dir) = true
  /\ exists st1 st2 tail,
       outcome (loop1 w {| start := 0; duration := video_duration w |}
                  {| insertion_times := []; insertion_clips := [];
                     clip1 := Unbound; clip2 := Unbound |}
                  (zip (audio_files w dir) (json_files w dir))) = Ok st1
       /\ loop2 {| video := {| start := 0; duration := video_duration w |};
                   final_clips := [];
                   l2_clip1 := clip1 st1; l2_clip2 := clip2 st1 |}
                (zip (relative_insertion_times (insertion_times st1))
                     (insertion_clips st1)) = Ok st2
       /\ read_local (l2_clip2 st2) = Ok tail
       /\ clips = final_clips st2 ++ [Base tail].
Proof.
  unfold stitch_video_audio.
  destruct (names_match _ _); [|discriminate].
  intros H. split; [reflexivity|].
  repeat (rewrite outcome_bind in H; cbn [lift emit outcome snd rbind] in H).
  destruct (outcome (loop1 _ _ _ _)) as [st1|e] eqn:H1; [|discriminate].
  cbn [rbind] in H.
  repeat (rewrite outcome_bind in H; cbn [lift emit outcome snd rbind] in H).
  destruct (loop2 _ _) as [st2|e] eqn:H2; [|discriminate].
  cbn [rbind] in H.
  repeat (rewrite outcome_bind in H; cbn [lift emit outcome snd rbind] in H).
  destruct (read_local (l2_clip2 st2)) as [tail|e] eqn:H3; [|discriminate].
  cbn [rbind] in H.
  repeat (rewrite outcome_bind in H; cbn [lift emit ret outcome snd rbind] in H).
  injection H as <-. exists st1, st2, tail. auto.
Qed.

(** A run that returns has processed at least one unit, every iteration
    of the first loop has run to its end, and the clip appended at line 94
    is the rest of the footage that the second loop has left. *)
Lemma completed_run_inv (w : world) (vf dir out : string)
  (clips : list segment) :
  let units := zip (audio_files w dir) (json_files w dir) in
  let v0 := {| start := 0; duration := video_duration w |} in
  outcome (stitch_video_audio w vf dir out) = Ok clips ->
  names_match (audio_files w dir) (json_files w dir) = true
  /\ units <> []
  /\ Forall (unit_runs w v0) units
  /\ exists times cs st1 st2,
       outcome (loop1 w v0 {| insertion_times := []; insertion_clips := [];
                              clip1 := Unbound; clip2 := Unbound |} units)
       = Ok st1
       /\ Forall2 (fun u t => insertion_time_of (fst u) = Ok t) units times
       /\ map audio_track cs = map fst units
       /\ map (fun ic => cc_duration (cursor ic)) cs
          = map (fun u => audio_duration w (fst u)) units
       /\ loop2 {| video := v0; final_clips := [];
                   l2_clip1 := clip1 st1; l2_clip2 := clip2 st1 |}
                (zip (relative_insertion_times times) cs) = Ok st2
       /\ map snd (zip (relative_insertion_times times) cs) = cs
       /\ clips = final_clips st2 ++ [Base (video st2)].
Proof.
  intros units v0 Hok.
  destruct (stitch_ok_inv w vf dir out clips Hok)
    as (Hmatch & st1 & st2 & tail & H1 & H2 & Htail & ->).
  fold units v0 in H1, H2.
  destruct (loop1_ok_inv w v0 units _ st1 H1)
    as (Hruns & _ & Hnil & Hc2 & times & cs & Htimes & Hti & Hcl & Htracks & Hdurs).
  cbn [insertion_times insertion_clips app] in Hti, Hcl.
  rewrite Hti, Hcl in H2.
  assert (Hne : units <> []).
  { intros E. rewrite E in *. rewrite (Hnil eq_refl) in H2.
    apply Forall2_nil_inv_l in Htimes. subst times.
    destruct cs; [|discriminate Htracks].
    cbn in H2. injection H2 as <-. discriminate Htail. }
  assert (Hlen : length cs = length times).
  { rewrite <- (length_map audio_track cs), Htracks, length_map.
    eapply Forall2_length. exact Htimes. }
  assert (Hpos : (0 < length times)%nat).
  { rewrite <- (Forall2_length _ _ _ Htimes).
    destruct units; [congruence|cbn [length]; lia]. }
  assert (Hsnd : map snd (zip (relative_insertion_times times) cs) = cs).
  { apply snd_zip. rewrite relative_insertion_times_length. lia. }
  assert (Hplan : zip (relative_insertion_times times) cs <> []).
  { intros E. rewrite E in Hsnd. destruct cs; [cbn [length] in Hlen; lia|discriminate]. }
  destruct (loop2_conserves_duration _ _ _ H2) as [_ Hbound].
  rewrite (Hbound Hplan) in Htail. injection Htail as <-.
  split; [exact Hmatch|]. split; [exact Hne|]. split; [exact Hruns|].
  exists times, cs, st1, st2. auto 10.
Qed.

(** X6: every run that returns conserves running time, in whatever order
    the units were processed: the clips it returns last as long as the
    video plus all the narrations. *)
Theorem every_completed_run_conserves_duration (w : world)
  (vf dir out : string) (clips : list segment) :
  outcome (stitch_video_audio w vf dir out) = Ok clips ->
  (total_duration clips
   == video_duration w
      + Qsum (map (fun u => audio_duration w (fst u))
                  (zip (audio_files w dir) (json_files w dir))))%Q.
Proof.
  intros Hok.
  destruct (completed_run_inv w vf dir out clips Hok)
    as (_ & _ & _ & times & cs & st1 & st2 & _ & _ & _ & Hdurs & H2 & Hsnd & ->).
  destruct (loop2_conserves_duration _ _ _ H2) as [Hcons _].
  cbn [final_clips video duration] in Hcons.
  rewrite total_duration_app. unfold total_duration at 2.
  cbn [map Qsum segment_duration].
  assert (E : (total_duration (final_clips st2) + (duration (video st2) + 0)
               == total_duration (final_clips st2) + duration (video st2))%Q)
    by ring.
  rewrite E, Hcons. unfold total_duration. cbn [map Qsum].
  set (plan := zip (relative_insertion_times times) cs) in *.
  assert (Hmap : map (fun p : Q * insertion_clip => cc_duration (cursor (snd p))) plan
                 = map (fun u => audio_duration w (fst u))
                       (zip (audio_files w dir) (json_files w dir))).
  { rewrite <- Hdurs, <- Hsnd, map_map. reflexivity. }
  rewrite Hmap. ring.
Qed.

Lemma alternates_counts (n : nat) : forall clips,
  (length clips <= n)%nat -> alternates clips = true ->
  length (footage clips) = S (length (narrations clips)).
Proof.
  induction n as [|n IH]; intros clips Hlen Halt.
  - destruct clips; [discriminate Halt|cbn [length] in Hlen; lia].
  - destruct clips as [|[c|ic] [|[c'|ic'] rest]]; try discriminate Halt.
    + reflexivity.
    + cbn [alternates] in Halt. cbn [footage narrations length].
      rewrite (IH rest); [reflexivity| |exact Halt].
      cbn [length] in Hlen. lia.
Qed.

(** Chained pieces need not tile the video.  With [1.wav], [9000.wav] and
    [91.wav] the string order is 1, 9000, 91; the last relative cut is
    negative, the third piece of footage runs backwards from 8.999 s to
    1.091 s, and the last piece shows the footage from 1.091 s on a second
    time. *)
Lemma footage_repeats_out_of_time_order :
  let w := uniform_world
             ["1.wav"; "1.json"; "9000.wav"; "9000.json"; "91.wav"; "91.json"]
             10 2 four_points in
  exists clips,
    outcome (stitch_video_audio w "video.mp4" "rec" "out.mp4") = Ok clips
    /\ layout clips
       = [Footage 0 0; Narration "rec/1.wav"; Footage 0 8.999;
          Narration "rec/9000.wav"; Footage 8.999 1.091;
          Narration "rec/91.wav"; Footage 1.091 10].
Proof.
  eexists. split; vm_compute; reflexivity.
Qed.

(** X7: the clips of every run that returns are footage, narration,
    footage, ..., footage, with one more piece of footage than narrations;
    the narrations are those of the audio files in the order of the sorted
    list; and the pieces of footage are chained: the first starts at the
    start of the video, every other piece starts at the position where the
    one before it ends, and the last ends at the end of the video.  Nothing
    is said on the sign of the durations: out of time order a piece can run
    backwards and footage can come twice
    ([footage_repeats_out_of_time_order]). *)
Theorem completed_run_interleaves_footage_and_narrations (w : world)
  (vf dir out : string) (clips : list segment) :
  outcome (stitch_video_audio w vf dir out) = Ok clips ->
  alternates clips = true
  /\ narrations clips = map fst (zip (audio_files w dir) (json_files w dir))
  /\ length (footage clips) = S (length (narrations clips))
  /\ chained 0 (footage clips) (video_duration w).
Proof.
  intros Hok.
  destruct (completed_run_inv w vf dir out clips Hok)
    as (_ & _ & _ & times & cs & st1 & st2 & _ & _ & Htracks & _ & H2 & Hsnd & ->).
  set (plan := zip (relative_insertion_times times) cs) in *.
  destruct (loop2_shape _ _ _ H2) as (added & Hfin & Hnar & Halt & Hcont & _).
  cbn [final_clips app video start duration] in Hfin, Hcont.
  rewrite Hfin.
  assert (Hn : narrations added
               = map fst (zip (audio_files w dir) (json_files w dir))).
  { rewrite Hnar, <- Htracks, <- Hsnd, map_map. reflexivity. }
  pose proof (Halt (video st2)) as Halt'.
  split; [exact Halt'|].
  split; [rewrite narrations_app; cbn [narrations]; now rewrite app_nil_r|].
  split; [eapply alternates_counts; [reflexivity|exact Halt']|].
  rewrite footage_app. cbn [footage].
  eapply chained_proper; [reflexivity| |exact Hcont]. ring.
Qed.

Ltac qbool :=
  repeat match goal with
  | H : Qlt_bool _ _ = true |- _ => apply Qlt_bool_iff in H
  | H : Qlt_bool _ _ = false |- _ => apply Qlt_bool_false_iff in H
  | H : Qeq_bool _ _ = true |- _ => apply Qeq_bool_iff in H
  | H : Qeq_bool _ _ = false |- _ => apply Qeq_bool_false_iff in H
  end.

Ltac qcase H :=
  repeat match type of H with
  | context [Qlt_bool ?a ?b] => destruct (Qlt_bool a b) eqn:?
  | context [Qeq_bool ?a ?b] => destruct (Qeq_bool a b) eqn:?
  end.

(** What an iteration that runs to its end tells about its unit. *)
Lemma unit_runs_conditions (w : world) (u : string * string) :
  unit_runs w {| start := 0; duration := video_duration w |} u ->
  exists t,
    insertion_time_of (fst u) = Ok t
    /\ (t <= video_duration w)%Q
    /\ json_load w (snd u) <> []
    /\ ~ (audio_duration w (fst u) == 0)%Q
    /\ ((0 <= t)%Q -> (0 < audio_duration w (fst u))%Q).
Proof.
  intros (t & c1 & c2 & held & cc & Ht & Hsplit & Hhold & Hinit).
  exists t. split; [exact Ht|].
  pose proof (CursorClip_init_cases (ellipse w) (video_frame w t)
                (json_load w (snd u)) (audio_duration w (fst u))) as Hcc.
  rewrite Hinit in Hcc. destruct Hcc as (Hne & Hnz & _).
  set (D := video_duration w) in *. set (len := audio_duration w (fst u)) in *.
  assert (Hmain : (t <= D)%Q /\ ((0 <= t)%Q -> (0 <= len)%Q)).
  { unfold split_at in Hsplit. cbn [duration] in Hsplit.
    destruct (Qlt_bool t D) eqn:HtD.
    - split; [qbool; lra|]. intros Ht0.
      unfold subclip in Hsplit. cbn [start duration] in Hsplit.
      replace (Qlt_bool 0 0) with false in Hsplit by reflexivity.
      qcase Hsplit; cbn [rbind] in Hsplit; try discriminate Hsplit;
        qbool; try lra.
      injection Hsplit as <- _.
      unfold hold, freeze, subclip in Hhold. cbn [start duration] in Hhold.
      replace (Qlt_bool 0 0) with false in Hhold by reflexivity.
      qcase Hhold; cbn [rbind start duration app Qsum] in Hhold;
        try discriminate Hhold; qbool; try lra;
        qcase Hhold; cbn [rbind start duration app Qsum] in Hhold;
        try discriminate Hhold; qbool; try lra.
    - injection Hsplit as <- _.
      unfold hold, freeze, subclip in Hhold. cbn [start duration] in Hhold.
      replace (Qlt_bool 0 0) with false in Hhold by reflexivity.
      split; [|intros Ht0];
        qcase Hhold; cbn [rbind start duration app Qsum] in Hhold;
        try discriminate Hhold; qbool; try lra;
        qcase Hhold; cbn [rbind start duration app Qsum] in Hhold;
        try discriminate Hhold; qbool; try lra. }
  destruct Hmain as [HtD Hlen].
  repeat split; try assumption.
  intros Ht0. specialize (Hlen Ht0). lra.
Qed.

(** X8: a run returns only if the assertion holds, there is at least one
    unit, and every unit has an integer file name, an insertion time that is
    not beyond the end of the video, a trajectory that is not empty and an
    audio duration that is not zero (and positive when the insertion time
    is not negative). *)
Theorem completed_run_requirements (w : world) (vf dir out : string)
  (clips : list segment) :
  let units := zip (audio_files w dir) (json_files w dir) in
  outcome (stitch_video_audio w vf dir out) = Ok clips ->
  names_match (audio_files w dir) (json_files w dir) = true
  /\ units <> []
  /\ Forall (fun u =>
       exists t,
         insertion_time_of (fst u) = Ok t
         /\ (t <= video_duration w)%Q
         /\ json_load w (snd u) <> []
         /\ ~ (audio_duration w (fst u) == 0)%Q
         /\ ((0 <= t)%Q -> (0 < audio_duration w (fst u))%Q)) units.
Proof.
  intros units Hok.
  destruct (completed_run_inv w vf dir out clips Hok) as (Hm & Hne & Hruns & _).
  split; [exact Hm|]. split; [exact Hne|].
  eapply Forall_impl; [exact Hruns|].
  intros u Hu. now apply unit_runs_conditions.
Qed.

Lemma stitch_trace_cases (w : world) (vf dir out : string) :
  let m1 := loop1 w {| start := 0; duration := video_duration w |}
              {| insertion_times := []; insertion_clips := [];
                 clip1 := Unbound; clip2 := Unbound |}
              (zip (audio_files w dir) (json_files w dir)) in
  let r := stitch_video_audio w vf dir out in
  trace r
  = if names_match (audio_files w dir) (json_files w dir)
    then LoadVideo vf :: trace m1
         ++ match outcome r with
            | Ok clips => [WriteVideo out clips]
            | Raise _ => []
            end
    else [].
Proof.
  intros m1 r. unfold r, stitch_video_audio.
  destruct (names_match _ _); [|reflexivity].
  fold m1. destruct m1 as [log [st1|e]]; cbn [bind lift emit ret trace outcome fst snd app].
  - destruct (loop2 _ _) as [st2|e]; [|now rewrite ?app_nil_r].
    destruct (read_local (l2_clip2 st2)) as [tail|e]; [|now rewrite ?app_nil_r].
    cbn [app]. now rewrite ?app_nil_r.
  - now rewrite ?app_nil_r.
Qed.

(** X9: the output file is written exactly when the run returns, once, as
    the last operation, and it holds the clips that are returned.  Before
    that the video is loaded and then, for each unit in order, its audio
    file, its trajectory file and the frame at its insertion time are
    read.  A run that raises writes nothing. *)
Theorem output_is_written_last_or_never (w : world) (vf dir out : string) :
  let r := stitch_video_audio w vf dir out in
  match outcome r with
  | Ok clips =>
      trace r
      = LoadVideo vf
        :: flat_map unit_events (zip (audio_files w dir) (json_files w dir))
        ++ [WriteVideo out clips]
  | Raise _ => Forall (fun ev => is_write ev = false) (trace r)
  end.
Proof.
  intros r. pose proof (stitch_trace_cases w vf dir out) as Htr.
  cbn zeta in Htr. fold r in Htr.
  destruct (outcome r) as [clips|e] eqn:Hout.
  - destruct (stitch_ok_inv w vf dir out clips Hout)
      as (Hm & st1 & st2 & tail & H1 & _).
    rewrite Hm in Htr. rewrite Htr.
    destruct (loop1_ok_inv _ _ _ _ _ H1) as (_ & Htrace & _).
    now rewrite Htrace.
  - rewrite Htr. destruct (names_match _ _); [|constructor].
    constructor; [reflexivity|]. rewrite app_nil_r.
    apply loop1_never_writes.
Qed.

Lemma Qsum_nonneg (l : list Q) :
  Forall (fun r => (0 <= r)%Q) l -> (0 <= Qsum l)%Q.
Proof.
  induction 1 as [|r l Hr _ IH]; cbn [Qsum]; lra.
Qed.

(** Where the second loop cuts when no cut is negative and the cuts
    together stay inside the footage: piece [k] starts after the first [k]
    cuts and ends after the first [k + 1]. *)
Lemma loop2_cut_points (plan : list (Q * insertion_clip)) : forall st,
  Forall (fun p => (0 <= fst p)%Q) plan ->
  (Qsum (map fst plan) <= duration (video st))%Q ->
  exists st' added,
    loop2 st plan = Ok st'
    /\ final_clips st' = final_clips st ++ added
    /\ Forall (fun c => (0 <= duration c)%Q) (footage added ++ [video st'])
    /\ forall k d, (k <= length plan)%nat ->
         (start (nth k (footage added ++ [video st']) d)
          == start (video st) + Qsum (firstn k (map fst plan)))%Q
         /\ ((k < length plan)%nat ->
             (start (nth k (footage added ++ [video st']) d)
              + duration (nth k (footage added ++ [video st']) d)
              == start (video st) + Qsum (firstn (S k) (map fst plan)))%Q).
Proof.
  induction plan as [|[r ic] plan IH]; intros st Hpos Hsum.
  - exists st, []. split; [reflexivity|]. split; [now rewrite app_nil_r|].
    cbn [map Qsum] in Hsum. cbn [footage app].
    split; [constructor; [exact Hsum|constructor]|].
    intros k d Hk. cbn [length] in Hk. replace k with 0%nat by lia.
    cbn [nth firstn map Qsum]. split; [ring|].
    intros H. cbn [length] in H. lia.
  - apply Forall_cons in Hpos as [Hr Hpos]. cbn [fst] in Hr.
    cbn [map Qsum fst] in Hsum.
    pose proof (Qsum_nonneg (map fst plan)) as Hrest.
    assert (Hall : Forall (fun r => (0 <= r)%Q) (map fst plan)).
    { apply Forall_forall. intros x Hx.
      apply list_elem_of_fmap in Hx as (p & -> & Hp).
      rewrite Forall_forall in Hpos. now apply Hpos. }
    specialize (Hrest Hall).
    cbn [loop2]. rewrite subclip_ok by lra. rewrite subclip_ok by lra.
    cbn [rbind].
    set (c1 := {| start := (start (video st) + 0)%Q; duration := (r - 0)%Q |}).
    set (c2 := {| start := (start (video st) + r)%Q;
                  duration := (duration (video st) - r)%Q |}).
    destruct (IH {| video := c2;
                    final_clips := final_clips st ++ [Base c1; Insertion ic];
                    l2_clip1 := Bound c1; l2_clip2 := Bound c2 |} Hpos)
      as (st' & added & Hrun & Hfin & Hdur & Hcuts).
    { cbn [video duration c2]. lra. }
    cbn [video final_clips] in Hfin, Hcuts.
    exists st', (Base c1 :: Insertion ic :: added).
    split; [exact Hrun|]. split; [rewrite Hfin, <- app_assoc; reflexivity|].
    cbn [footage app]. split; [constructor; [cbn; lra|exact Hdur]|].
    intros k d Hk. destruct k as [|k].
    + unfold c1. cbn [nth firstn map Qsum start duration fst]. split; [ring|].
      intros _. change (firstn 0 (map fst plan)) with (@nil Q).
      cbn [Qsum]. ring.
    + cbn [length] in Hk. destruct (Hcuts k d) as [Hs He]; [lia|].
      change (nth (S k) (c1 :: footage added ++ [video st']) d)
        with (nth k (footage added ++ [video st']) d).
      change (map fst ((r, ic) :: plan)) with (r :: map fst plan).
      split.
      * rewrite Hs. unfold c2. cbn [start firstn Qsum]. ring.
      * intros Hlt. rewrite He by (cbn [length] in Hlt; lia).
        unfold c2. cbn [start firstn Qsum]. ring.
Qed.

Lemma insertion_times_unique (units : list (string * string)) :
  forall t1 t2,
  Forall2 (fun u t => insertion_time_of (fst u) = Ok t) units t1 ->
  Forall2 (fun u t => insertion_time_of (fst u) = Ok t) units t2 ->
  t1 = t2.
Proof.
  induction units as [|u units IH]; intros t1 t2 H1 H2.
  - apply Forall2_nil_inv_l in H1, H2. congruence.
  - apply Forall2_cons_inv_l in H1 as (x1 & r1 & Hx1 & Hr1 & ->).
    apply Forall2_cons_inv_l in H2 as (x2 & r2 & Hx2 & Hr2 & ->).
    f_equal; [congruence|]. now apply IH.
Qed.

(** X11: where the narrations land when the units are in time order.  In
    a run that returns, when the insertion times of the units, in the order
    of the first loop, are not negative and non-decreasing, the pieces of
    footage all have a duration that is not negative, and the footage
    before narration [k] ends, and the footage after it starts, at
    [times[k] - times[0]]: every narration is placed earlier than its own
    insertion time by the insertion time of the first one, which itself is
    placed at the very start. *)
Theorem narrations_are_placed_relative_to_the_first (w : world)
  (vf dir out : string) (times : list Q) (clips : list segment) :
  let units := zip (audio_files w dir) (json_files w dir) in
  outcome (stitch_video_audio w vf dir out) = Ok clips ->
  Forall2 (fun u t => insertion_time_of (fst u) = Ok t) units times ->
  Forall (fun t => (0 <= t)%Q) times ->
  Sorted Qle times ->
  Forall (fun c => (0 <= duration c)%Q) (footage clips)
  /\ forall k d, (k < length times)%nat ->
       (start (nth k (footage clips) d) + duration (nth k (footage clips) d)
        == nth k times 0 - nth 0 times 0)%Q
       /\ (start (nth (S k) (footage clips) d)
           == nth k times 0 - nth 0 times 0)%Q.
Proof.
  intros units Hok Htimes Hnonneg Hsorted.
  destruct (completed_run_inv w vf dir out clips Hok)
    as (_ & Hne & Hruns & times' & cs & st1 & st2 & _ & Htimes' & Htracks
        & _ & H2 & _ & ->).
  fold units in Hne, Hruns, Htimes', Htracks.
  assert (times' = times)
    by (eapply insertion_times_unique; eassumption).
  subst times'.
  assert (Hlen : length times = length units)
    by (symmetry; eapply Forall2_length; exact Htimes).
  assert (Hcs : length cs = length times).
  { rewrite <- (length_map audio_track cs), Htracks, length_map. lia. }
  assert (Hle : Forall (fun t => (t <= video_duration w)%Q) times).
  { eapply Forall2_Forall_r; [exact Htimes|].
    eapply Forall_impl; [exact Hruns|].
    intros u Hu t Ht.
    destruct (unit_runs_conditions w u Hu) as (t' & Ht' & HtD & _).
    assert (t' = t) by congruence. now subst t'. }
  destruct times as [|t0 rest].
  { destruct units; [congruence|discriminate Hlen]. }
  set (plan := zip (relative_insertion_times (t0 :: rest)) cs) in *.
  assert (Hrel : map fst plan = 0%Q :: diffs t0 rest).
  { unfold plan. rewrite relative_insertion_times_cons.
    apply fst_zip. rewrite Hcs. cbn [length].
    rewrite diffs_length. lia. }
  destruct (diffs_of_sorted (video_duration w) rest t0 Hsorted Hle) as [Hpos Hsum].
  assert (Ht0 : (0 <= t0)%Q).
  { apply Forall_cons in Hnonneg as [H _]. exact H. }
  set (st0 := {| video := {| start := 0; duration := video_duration w |};
                 final_clips := [];
                 l2_clip1 := clip1 st1; l2_clip2 := clip2 st1 |}) in *.
  destruct (loop2_cut_points plan st0) as (st2' & added & H2' & Hfin & Hdurs & Hcuts).
  { assert (Hall : Forall (fun r => (0 <= r)%Q) (map fst plan)).
    { rewrite Hrel. constructor; [lra|exact Hpos]. }
    apply (proj1 (Forall_fmap fst (fun r => (0 <= r)%Q) plan)) in Hall.
    exact Hall. }
  { rewrite Hrel. cbn [Qsum st0 video duration]. lra. }
  assert (st2' = st2) by congruence. subst st2'.
  cbn [st0 final_clips app] in Hfin. rewrite Hfin, footage_app.
  cbn [footage]. split; [exact Hdurs|].
  intros k d Hk. cbn [length] in Hk.
  assert (Hsumk : (Qsum (firstn (S k) (map fst plan))
                   == nth k (t0 :: rest) 0 - t0)%Q).
  { rewrite Hrel. cbn [firstn Qsum].
    rewrite diffs_prefix_sum by lia. ring. }
  assert (Hplanlen : length plan = S (length rest)).
  { rewrite <- (length_map fst plan), Hrel. cbn [length].
    now rewrite diffs_length. }
  split.
  - destruct (Hcuts k d) as [_ He]; [lia|]. rewrite He by lia.
    unfold st0. cbn [video start]. rewrite Hsumk.
    change (nth 0 (t0 :: rest) 0%Q) with t0. ring.
  - destruct (Hcuts (S k) d) as [Hs _]; [lia|]. rewrite Hs.
    unfold st0. cbn [video start]. rewrite Hsumk.
    change (nth 0 (t0 :: rest) 0%Q) with t0. ring.
Qed.

Lemma every_completed_run_conserves_duration_witness :
  let w := uniform_world ["200.wav"; "200.json"; "1000.wav"; "1000.json"]
             10 2 four_points in
  exists clips,
    outcome (stitch_video_audio w "video.mp4" "rec" "out.mp4") = Ok clips
    /\ (total_duration clips
        == 10 + Qsum (map (fun u => audio_duration w (fst u))
                          (zip (audio_files w "rec") (json_files w "rec"))))%Q.
Proof.
  intros w.
  assert (H : exists clips,
             outcome (stitch_video_audio w "video.mp4" "rec" "out.mp4")
             = Ok clips)
    by (eexists; vm_compute; reflexivity).
  destruct H as [clips H]. exists clips. split; [exact H|].
  exact (every_completed_run_conserves_duration w "video.mp4" "rec" "out.mp4"
           clips H).
Defined.

Lemma completed_run_interleaves_witness :
  let w := uniform_world ["200.wav"; "200.json"; "1000.wav"; "1000.json"]
             10 2 four_points in
  exists clips,
    outcome (stitch_video_audio w "video.mp4" "rec" "out.mp4") = Ok clips
    /\ alternates clips = true
    /\ narrations clips
       = map fst (zip (audio_files w "rec") (json_files w "rec"))
    /\ length (footage clips) = S (length (narrations clips))
    /\ chained 0 (footage clips) 10.
Proof.
  intros w.
  assert (H : exists clips,
             outcome (stitch_video_audio w "video.mp4" "rec" "out.mp4")
             = Ok clips)
    by (eexists; vm_compute; reflexivity).
  destruct H as [clips H]. exists clips. split; [exact H|].
  exact (completed_run_interleaves_footage_and_narrations w "video.mp4" "rec"
           "out.mp4" clips H).
Defined.

Lemma completed_run_requirements_witness :
  let w := uniform_world ["3000.wav"; "3000.json"] 10 2 four_points in
  exists clips,
    outcome (stitch_video_audio w "video.mp4" "rec" "out.mp4") = Ok clips
    /\ names_match (audio_files w "rec") (json_files w "rec") = true
    /\ zip (audio_files w "rec") (json_files w "rec") <> [].
Proof.
  intros w.
  assert (H : exists clips,
             outcome (stitch_video_audio w "video.mp4" "rec" "out.mp4")
             = Ok clips)
    by (eexists; vm_compute; reflexivity).
  destruct H as [clips H]. exists clips. split; [exact H|].
  destruct (completed_run_requirements w "video.mp4" "rec" "out.mp4" clips H)
    as (Hm & Hne & _).
  split; [exact Hm|exact Hne].
Defined.

Lemma narrations_are_placed_witness :
  let w := uniform_world
             ["1000.wav"; "1000.json"; "4000.wav"; "4000.json";
              "2000.wav"; "2000.json"] 10 2 four_points in
  let units := zip (audio_files w "rec") (json_files w "rec") in
  let times := [1000 # 1000; 2000 # 1000; 4000 # 1000]%Q in
  exists clips,
    (outcome (stitch_video_audio w "video.mp4" "rec" "out.mp4") = Ok clips
     /\ Forall2 (fun u t => insertion_time_of (fst u) = Ok t) units times
     /\ Forall (fun t => (0 <= t)%Q) times
     /\ Sorted Qle times)
    /\ forall d,
         (start (nth 3 (footage clips) d) == (4000 # 1000) - (1000 # 1000))%Q.
Proof.
  intros w units times.
  assert (H : exists clips,
             outcome (stitch_video_audio w "video.mp4" "rec" "out.mp4")
             = Ok clips)
    by (eexists; vm_compute; reflexivity).
  destruct H as [clips H1]. exists clips.
  assert (Hunits : units
                   = [("rec/1000.wav", "rec/1000.json");
                      ("rec/2000.wav", "rec/2000.json");
                      ("rec/4000.wav", "rec/4000.json")]%string)
    by (vm_compute; reflexivity).
  assert (H3 : Forall2 (fun u t => insertion_time_of (fst u) = Ok t) units times)
    by (rewrite Hunits; repeat constructor).
  assert (H4 : Forall (fun t => (0 <= t)%Q) times)
    by (repeat constructor; discriminate).
  assert (H5 : Sorted Qle times)
    by (repeat constructor; discriminate).
  split; [repeat split; assumption|].
  destruct (narrations_are_placed_relative_to_the_first w "video.mp4" "rec"
              "out.mp4" times clips H1 H3 H4 H5) as (_ & Hplace).
  intros d. destruct (Hplace 2%nat d) as [_ Hstart]; [simpl; lia|].
  exact Hstart.
Defined.

(* ================================================================== *)
(** * File names, listings and pairing *)
(* ================================================================== *)

Section DecimalNames.

Local Open Scope string_scope.

Ltac each_digit d IH :=
  induction d as [|d IH|d IH|d IH|d IH|d IH|d IH|d IH|d IH|d IH|d IH].

Lemma numeral_no_char (c : ascii) (d : Decimal.uint) :
  digit_value c = None -> has_char c (NilEmpty.string_of_uint d) = false.
Proof.
  intros Hc. each_digit d IH; cbn [NilEmpty.string_of_uint has_char];
    [reflexivity|..]; rewrite IH;
    match goal with
    | |- context [Ascii.eqb ?a c] =>
        destruct (Ascii.eqb_spec a c) as [<-|_];
        [discriminate Hc|reflexivity]
    end.
Qed.

Lemma numeral_lstrip (d : Decimal.uint) :
  lstrip (NilEmpty.string_of_uint d) = NilEmpty.string_of_uint d.
Proof. destruct d; reflexivity. Qed.

Lemma numeral_rstrip (d : Decimal.uint) :
  rstrip (NilEmpty.string_of_uint d) = NilEmpty.string_of_uint d.
Proof.
  each_digit d IH; cbn [NilEmpty.string_of_uint rstrip]; [reflexivity|..];
    rewrite IH; destruct (NilEmpty.string_of_uint d); reflexivity.
Qed.

Lemma numeral_digits_tail (d : Decimal.uint) :
  forall acc : positive,
  digits_tail (Zpos acc) false (NilEmpty.string_of_uint d)
  = Some (Zpos (Pos.of_uint_acc d acc)).
Proof.
  each_digit d IH; intros acc;
    cbn [NilEmpty.string_of_uint digits_tail Pos.of_uint_acc];
    [reflexivity|..];
    match goal with
    | |- context [digit_value ?c] =>
        let v := eval vm_compute in (digit_value c) in
        change (digit_value c) with v; cbv iota
    end;
    rewrite <- IH; f_equal; lia.
Qed.

Lemma numeral_digits_from_zero (d : Decimal.uint) :
  digits_tail 0 false (NilEmpty.string_of_uint d)
  = Some (Z.of_N (Pos.of_uint d)).
Proof.
  each_digit d IH; cbn [NilEmpty.string_of_uint digits_tail Pos.of_uint];
    [reflexivity|..];
    match goal with
    | |- context [digit_value ?c] =>
        let v := eval vm_compute in (digit_value c) in
        change (digit_value c) with v; cbv iota
    end;
    [exact IH|..]; apply numeral_digits_tail.
Qed.

Lemma numeral_digits (d : Decimal.uint) :
  d <> Decimal.Nil ->
  digits (NilEmpty.string_of_uint d) = Some (Z.of_N (N.of_uint d)).
Proof.
  intros Hd. destruct d; [congruence|..];
    cbn [NilEmpty.string_of_uint digits N.of_uint Pos.of_uint];
    match goal with
    | |- context [digit_value ?c] =>
        let v := eval vm_compute in (digit_value c) in
        change (digit_value c) with v; cbv iota
    end;
    [apply numeral_digits_from_zero|..]; apply numeral_digits_tail.
Qed.

Lemma to_uint_not_nil (n : N) : N.to_uint n <> Decimal.Nil.
Proof.
  intros E. pose proof (DecimalN.Unsigned.of_to n) as H.
  rewrite E in H. cbn in H. subst n. discriminate E.
Qed.

Lemma int_of_decimal (n : N) : int_of_str (decimal n) = Ok (Z.of_N n).
Proof.
  unfold int_of_str, decimal.
  rewrite numeral_lstrip, numeral_rstrip.
  pose proof (numeral_digits _ (to_uint_not_nil n)) as H.
  rewrite DecimalN.Unsigned.of_to in H.
  destruct (N.to_uint n); [discriminate H|..];
    cbn [NilEmpty.string_of_uint] in *; cbv iota; rewrite H; reflexivity.
Qed.

Lemma decimal_not_empty (n : N) : decimal n <> "".
Proof.
  unfold decimal. pose proof (to_uint_not_nil n) as H.
  destruct (N.to_uint n); [congruence|..]; discriminate.
Qed.

Lemma base_name_of_plain (dir b ext : string) :
  b <> "" -> has_char sep b = false -> has_char dot b = false ->
  has_char sep ext = false -> has_char dot ext = false ->
  base_name (join dir (b ++ String dot ext)) = b.
Proof.
  intros Hne Hsep Hdot He1 He2.
  assert (Hf : has_char sep (b ++ String dot ext) = false).
  { rewrite has_char_app, Hsep. cbn [has_char orb]. rewrite He1. reflexivity. }
  unfold base_name. rewrite join_relative, basename_relative by exact Hf.
  rewrite splitext_ext by assumption.
  destruct (all_dots b) eqn:E; [|reflexivity].
  apply all_dots_has_dot in E as [E|E]; congruence.
Qed.

End DecimalNames.

(** X12: the naming contract of lines 54 to 57.  In any directory, an
    audio file whose name is a decimal numeral, with or without leading
    zeros, followed by [.wav] is inserted at that number of milliseconds,
    that is a thousandth of it in seconds; the trajectory file with the same
    numeral has the same base name, which is what the assertion of line 45
    compares.  In particular the file named after [n] in the usual notation
    is inserted at [n / 1000] seconds. *)
Theorem numeral_file_name_is_read_as_milliseconds (dir : string)
  (d : Decimal.uint) (n : N) :
  d <> Decimal.Nil ->
  let name := NilEmpty.string_of_uint d in
  (insertion_time_of (join dir (name ++ ".wav"))
   = Ok (inject_Z (Z.of_N (N.of_uint d)) / 1000)%Q
   /\ base_name (join dir (name ++ ".wav")) = name
   /\ base_name (join dir (name ++ ".json")) = name)
  /\ insertion_time_of (join dir (decimal n ++ ".wav"))
     = Ok (inject_Z (Z.of_N n) / 1000)%Q.
Proof.
  intros Hd name. unfold name.
  assert (Hgen : forall d', d' <> Decimal.Nil ->
            base_name (join dir (NilEmpty.string_of_uint d' ++ ".wav"))
            = NilEmpty.string_of_uint d'
            /\ base_name (join dir (NilEmpty.string_of_uint d' ++ ".json"))
               = NilEmpty.string_of_uint d').
  { intros d' Hd'.
    assert (Hne : NilEmpty.string_of_uint d' <> ""%string)
      by (destruct d'; [congruence|..]; discriminate).
    split.
    - apply (base_name_of_plain dir _ "wav"); auto using numeral_no_char.
    - apply (base_name_of_plain dir _ "json"); auto using numeral_no_char. }
  destruct (Hgen d Hd) as [Hw Hj].
  split; [split; [|split; assumption]|].
  - unfold insertion_time_of, name. rewrite Hw. unfold int_of_str.
    rewrite numeral_lstrip, numeral_rstrip.
    pose proof (numeral_digits d Hd) as H.
    destruct d; [congruence|..];
      cbn [NilEmpty.string_of_uint] in *; cbv iota; rewrite H; reflexivity.
  - unfold insertion_time_of, decimal.
    rewrite (proj1 (Hgen _ (to_uint_not_nil n))).
    fold (decimal n). rewrite int_of_decimal. reflexivity.
Qed.

Lemma numeral_file_name_witness :
  Decimal.D0 (Decimal.D2 (Decimal.D0 (Decimal.D0 Decimal.Nil))) <> Decimal.Nil
  /\ insertion_time_of "rec/0200.wav" = Ok (200 / 1000)%Q
  /\ insertion_time_of "rec/1500.wav" = Ok (1500 / 1000)%Q.
Proof.
  assert (H : Decimal.D0 (Decimal.D2 (Decimal.D0 (Decimal.D0 Decimal.Nil)))
              <> Decimal.Nil) by discriminate.
  split; [exact H|].
  pose proof (numeral_file_name_is_read_as_milliseconds "rec" _ 1500 H) as T.
  split; [exact (proj1 (proj1 T))|exact (proj2 T)].
Defined.

Section Listing.

Local Open Scope string_scope.

Lemma str_app_last_inj (s : string) : forall (t : string) (a b : ascii),
  s ++ String a "" = t ++ String b "" -> a = b.
Proof.
  induction s as [|x s IH]; intros [|y t] a b E.
  - rewrite !str_app_nil_l in E. now injection E.
  - rewrite str_app_nil_l, str_app_cons in E. injection E as _ E.
    destruct t; discriminate E.
  - rewrite str_app_nil_l, str_app_cons in E. injection E as _ E.
    destruct s; discriminate E.
  - rewrite !str_app_cons in E. injection E as _ E. eauto.
Qed.

Lemma endswith_join (dir f ext : string) :
  endswith f ext = true -> endswith (join dir f) ext = true.
Proof.
  rewrite !endswith_app. intros (p & ->). unfold join.
  destruct (startswith _ _); [eauto|].
  destruct (_ || _).
  - exists (dir ++ p). now rewrite str_app_assoc.
  - exists (dir ++ String sep p).
    now rewrite str_app_assoc, str_app_cons.
Qed.

Lemma listed_iff (w : world) (dir ext p : string) :
  p ∈ sorted (map (join dir)
                  (List.filter (fun f => endswith f ext) (listdir w dir)))
  <-> exists f, f ∈ listdir w dir /\ endswith f ext = true /\ p = join dir f.
Proof.
  unfold sorted. rewrite merge_sort_Permutation, list_elem_of_fmap.
  split.
  - intros (f & -> & Hf). apply list_elem_of_In, filter_In in Hf as [Hf He].
    apply list_elem_of_In in Hf. eauto.
  - intros (f & Hf & He & ->). exists f. split; [reflexivity|].
    apply list_elem_of_In, filter_In. split; [|exact He].
    now apply list_elem_of_In.
Qed.

End Listing.

(** X13: what lines 40 and 42 collect.  The audio list holds exactly the
    entries of the directory whose names end in [.wav], each joined to the
    directory, and the trajectory list those that end in [.json]; entries
    with any other ending are in neither list.  Both lists are in
    increasing order of the paths as strings, and no path is in both
    lists. *)
Theorem listings_are_filtered_sorted_and_disjoint (w : world) (dir : string) :
  (forall p, p ∈ audio_files w dir
     <-> exists f, f ∈ listdir w dir /\ endswith f ".wav" = true
                   /\ p = join dir f)
  /\ (forall p, p ∈ json_files w dir
        <-> exists f, f ∈ listdir w dir /\ endswith f ".json" = true
                      /\ p = join dir f)
  /\ StronglySorted String.le (audio_files w dir)
  /\ StronglySorted String.le (json_files w dir)
  /\ (forall p, p ∈ audio_files w dir -> p ∉ json_files w dir).
Proof.
  split; [intros p; apply listed_iff|].
  split; [intros p; apply listed_iff|].
  split; [apply StronglySorted_merge_sort; apply _|].
  split; [apply StronglySorted_merge_sort; apply _|].
  intros p Ha Hj.
  apply listed_iff in Ha as (f & _ & Hf & ->).
  apply listed_iff in Hj as (g & _ & Hg & E).
  apply (endswith_join dir) in Hf, Hg. rewrite <- E in Hg.
  apply endswith_app in Hf as (q & Hq), Hg as (q' & Hq').
  rewrite Hq in Hq'.
  change ".wav"%string with (".wa" ++ "v")%string in Hq'.
  change ".json"%string with (".jso" ++ "n")%string in Hq'.
  rewrite <- !str_app_assoc in Hq'.
  apply str_app_last_inj in Hq'. discriminate Hq'.
Qed.

Section RunPairing.

Local Open Scope string_scope.

Lemma zip_map_r {X Y} (g : X -> Y) (l : list X) :
  zip l (map g l) = map (fun a => (a, g a)) l.
Proof.
  induction l as [|x l IH]; [reflexivity|].
  cbn [map zip zip_with]. f_equal. exact IH.
Qed.

Lemma zip_firstn_member {X Y} (l : list X) :
  forall (k : list Y) (a : X),
  a ∈ firstn (length k) l -> exists b, (a, b) ∈ zip l k.
Proof.
  induction l as [|x l IH]; intros k a Ha.
  - destruct k; inversion Ha.
  - destruct k as [|y k]; [inversion Ha|].
    cbn [length firstn] in Ha. apply elem_of_cons in Ha as [->|Ha].
    + exists y. constructor.
    + destruct (IH k a Ha) as (b & Hb). exists b. now constructor.
Qed.

Variable w : world.
Variable dir : string.

Let A := audio_files w dir.
Let J := json_files w dir.

Hypothesis names_distinct : NoDup (listdir w dir).
Hypothesis names_plain : forall f, f ∈ listdir w dir -> has_char sep f = false.
Hypothesis bases_match : names_match A J = true.
Hypothesis units_plain :
  forall a j, (a, j) ∈ zip A J -> has_char dot (base_name a) = false.

(** When every audio file that is in a unit has a base name without a dot,
    so has every audio file: the units leave no audio file out. *)
Lemma units_cover_the_audio_files (a : string) :
  a ∈ A -> has_char dot (base_name a) = false.
Proof.
  set (A1 := firstn (length J) A).
  assert (Hplain1 : forall a, a ∈ A1 -> has_char dot (base_name a) = false).
  { intros a1 Ha1. destruct (zip_firstn_member A J a1 Ha1) as (j & Hj). eauto. }
  assert (Hsub : forall a, a ∈ A1 -> a ∈ A).
  { intros a1 H. rewrite <- (firstn_skipn (length J) A).
    apply elem_of_app. left. exact H. }
  destruct (Nat.le_gt_cases (length A) (length J)) as [Hle|Hgt].
  { intros Ha. apply Hplain1. unfold A1. now rewrite firstn_all2. }
  pose proof bases_match as Hm. rewrite names_match_iff in Hm.
  assert (Hnd : NoDup (map base_name A1)).
  { apply NoDup_fmap_2_strong.
    - intros a1 a2 H1 H2 E.
      rewrite (listed_path w dir names_plain "wav" a1 eq_refl eq_refl
                 (Hsub _ H1) (Hplain1 _ H1)).
      rewrite (listed_path w dir names_plain "wav" a2 eq_refl eq_refl
                 (Hsub _ H2) (Hplain1 _ H2)).
      now rewrite E.
    - apply (sublist_NoDup _ A); [|apply sublist_take].
      apply (listed_paths_distinct w dir names_distinct names_plain). }
  assert (Hperm : map base_name A1 ≡ₚ map base_name J).
  { apply submseteq_length_Permutation.
    - apply NoDup_submseteq; [exact Hnd|].
      intros b Hb. apply Hm.
      apply list_elem_of_fmap in Hb as (a1 & -> & Ha1).
      apply list_elem_of_fmap. eauto.
    - rewrite !length_map. unfold A1. rewrite length_take. lia. }
  intros Ha.
  assert (Hb : base_name a ∈ map base_name A1).
  { rewrite Hperm. apply Hm. apply list_elem_of_fmap. eauto. }
  apply list_elem_of_fmap in Hb as (a1 & -> & Ha1). auto.
Qed.

Lemma units_pair_by_base_name : J = map (json_of dir) A.
Proof.
  symmetry.
  exact (trajectories_in_audio_order w dir names_distinct names_plain
           bases_match units_cover_the_audio_files).
Qed.

Lemma unit_base_names_agree (a : string) :
  a ∈ A -> base_name (json_of dir a) = base_name a.
Proof.
  intros Ha.
  assert (Hj : json_of dir a ∈ J).
  { rewrite units_pair_by_base_name. apply list_elem_of_fmap. eauto. }
  pose proof (json_path w dir names_plain bases_match
                units_cover_the_audio_files _ Hj) as E.
  unfold json_of in E at 1.
  apply (inj (String.app _)) in E.
  apply app_dot_inj in E as [E _];
    auto using units_cover_the_audio_files.
  apply (json_base_plain w dir bases_match units_cover_the_audio_files).
  exact Hj.
Qed.

End RunPairing.

(** X14: a run that returns has paired every audio file with its own
    trajectory.  In a directory listing of distinct names without slashes,
    when the run returns, the trajectory files are, in order, those of the
    audio files (same directory and base name), so the units of the first
    loop are the audio files in sorted order, none left out, each with its
    own trajectory: the mispairing that dotted base names can cause never
    reaches the output, since line 57 raises on such a name. *)
Theorem completed_run_pairs_by_base_name (w : world) (vf dir out : string)
  (clips : list segment) :
  NoDup (listdir w dir) ->
  (forall f, f ∈ listdir w dir -> has_char sep f = false) ->
  outcome (stitch_video_audio w vf dir out) = Ok clips ->
  json_files w dir = map (json_of dir) (audio_files w dir)
  /\ zip (audio_files w dir) (json_files w dir)
     = map (fun a => (a, json_of dir a)) (audio_files w dir)
  /\ forall a j, (a, j) ∈ zip (audio_files w dir) (json_files w dir) ->
       base_name j = base_name a.
Proof.
  intros Hnd Hplain Hok.
  destruct (completed_run_inv w vf dir out clips Hok) as (Hm & _ & Hruns & _).
  assert (Hunits : forall a j,
            (a, j) ∈ zip (audio_files w dir) (json_files w dir) ->
            has_char dot (base_name a) = false).
  { intros a j Hin. rewrite Forall_forall in Hruns.
    destruct (Hruns _ Hin) as (t & _ & _ & _ & _ & Ht & _).
    exact (insertion_time_of_plain _ t Ht). }
  pose proof (units_pair_by_base_name w dir Hnd Hplain Hm Hunits) as HJ.
  assert (Hzip : zip (audio_files w dir) (json_files w dir)
                 = map (fun a => (a, json_of dir a)) (audio_files w dir)).
  { rewrite HJ at 1. apply zip_map_r. }
  split; [exact HJ|]. split; [exact Hzip|].
  intros a j Hin.
  rewrite Hzip in Hin. apply list_elem_of_fmap in Hin as (a' & [= -> ->] & Ha).
  exact (unit_base_names_agree w dir Hnd Hplain Hm Hunits a' Ha).
Qed.

Lemma completed_run_pairs_witness :
  let w := uniform_world
             ["200.wav"; "1000.json"; "1000.wav"; "200.json"; "notes.txt"]
             10 2 four_points in
  (NoDup (listdir w "rec")
   /\ (forall f, f ∈ listdir w "rec" -> has_char sep f = false)
   /\ exists clips,
        outcome (stitch_video_audio w "v.mp4" "rec" "out.mp4") = Ok clips)
  /\ json_files w "rec" = map (json_of "rec") (audio_files w "rec").
Proof.
  intros w.
  assert (H1 : NoDup (listdir w "rec"))
    by (apply (bool_decide_unpack _); vm_compute; exact I).
  assert (H2 : forall f, f ∈ listdir w "rec" -> has_char sep f = false).
  { apply Forall_forall. repeat constructor. }
  destruct (outcome (stitch_video_audio w "v.mp4" "rec" "out.mp4"))
    as [clips|e] eqn:H3; [|vm_compute in H3; discriminate H3].
  split; [split; [exact H1|split; [exact H2|eauto]]|].
  exact (proj1 (completed_run_pairs_by_base_name w "v.mp4" "rec" "out.mp4"
                  clips H1 H2 H3)).
Defined.

(* ================================================================== *)
(** * The order of the flags *)
(* ================================================================== *)

Section FlagOrder.

Lemma store_last (args : list (Cli.dest * string)) :
  forall ns d v,
  NoDup (map fst args) -> (d, v) ∈ args ->
  fold_left (fun ns '(d, v) => Cli.store ns d v) args ns d = Some v.
Proof.
  induction args as [|[d' v'] args IH]; intros ns d v Hnd Hin.
  - inversion Hin.
  - cbn [map fst] in Hnd. apply NoDup_cons in Hnd as [Hd' Hnd].
    cbn [fold_left]. apply elem_of_cons in Hin as [[= -> ->]|Hin].
    + rewrite store_other by exact Hd'. unfold Cli.store.
      now rewrite decide_True.
    + now apply IH.
Qed.

Lemma store_all_perm (args args' : list (Cli.dest * string)) (d : Cli.dest) :
  NoDup (map fst args) -> args ≡ₚ args' ->
  Cli.store_all args d = Cli.store_all args' d.
Proof.
  intros Hnd Hp. unfold Cli.store_all.
  assert (Hnd' : NoDup (map fst args')) by now rewrite <- Hp.
  destruct (decide (d ∈ map fst args)) as [Hin|Hout].
  - apply list_elem_of_fmap in Hin as ([d' v] & -> & Hin). cbn [fst].
    rewrite (store_last args _ d' v Hnd Hin).
    rewrite Hp in Hin. now rewrite (store_last args' _ d' v Hnd' Hin).
  - rewrite store_other by exact Hout.
    rewrite Hp in Hout. now rewrite store_other by exact Hout.
Qed.

End FlagOrder.

(** X15: the values are passed by flag, not by position.  When each flag
    is given at most once, with values that do not start with a dash, the
    call of line 109 receives for each parameter the value that follows its
    own flag, and the order of the flags on the command line does not
    matter. *)
Theorem flags_may_come_in_any_order (args args' : list (Cli.dest * string)) :
  Forall (fun a => startswith (snd a) "-" = false) args ->
  NoDup (map fst args) ->
  args ≡ₚ args' ->
  Cli.main (Cli.command_line args') = Cli.main (Cli.command_line args)
  /\ exists video audio_dir output,
       Cli.main (Cli.command_line args) = Cli.Call video audio_dir output
       /\ (forall v, (Cli.video_file, v) ∈ args -> video = Some v)
       /\ (forall v, (Cli.narration_dir, v) ∈ args -> audio_dir = Some v)
       /\ (forall v, (Cli.output_file, v) ∈ args -> output = Some v).
Proof.
  intros Hargs Hnd Hp.
  assert (Hargs' : Forall (fun a => startswith (snd a) "-" = false) args')
    by now rewrite <- Hp.
  assert (Hmain : forall l,
            Forall (fun a => startswith (snd a) "-" = false) l ->
            Cli.main (Cli.command_line l)
            = Cli.Call (Cli.store_all l Cli.video_file)
                       (Cli.store_all l Cli.narration_dir)
                       (Cli.store_all l Cli.output_file)).
  { intros l Hl. unfold Cli.main, Cli.parse_args.
    rewrite consume_command_line by exact Hl.
    rewrite no_argument_is_required. reflexivity. }
  split.
  - rewrite !Hmain by assumption.
    now rewrite !(store_all_perm args args') by assumption.
  - eexists _, _, _. split; [apply Hmain; exact Hargs|].
    repeat split; intros v Hv; unfold Cli.store_all; now apply store_last.
Qed.

Lemma flags_may_come_in_any_order_witness :
  let args := [(Cli.video_file, "v.mp4"); (Cli.output_file, "o.mp4");
               (Cli.narration_dir, "rec")]%string in
  let args' := [(Cli.narration_dir, "rec"); (Cli.video_file, "v.mp4");
                (Cli.output_file, "o.mp4")]%string in
  (Forall (fun a => startswith (snd a) "-" = false) args
   /\ NoDup (map fst args) /\ args ≡ₚ args')
  /\ Cli.main ["--narration-dir"; "rec"; "--video-file"; "v.mp4";
               "--output-file"; "o.mp4"]%string
     = Cli.main ["--video-file"; "v.mp4"; "--output-file"; "o.mp4";
                 "--narration-dir"; "rec"]%string.
Proof.
  intros args args'.
  assert (H1 : Forall (fun a => startswith (snd a) "-" = false) args)
    by (repeat constructor).
  assert (H2 : NoDup (map fst args))
    by (apply (bool_decide_unpack _); vm_compute; exact I).
  assert (H3 : args ≡ₚ args').
  { unfold args, args'.
    etransitivity; [apply Permutation_skip, Permutation_swap|].
    apply Permutation_swap. }
  split; [auto|].
  exact (proj1 (flags_may_come_in_any_order args args' H1 H2 H3)).
Defined.
